(** * kook_api.py: command routing and batched sending

    A shallow embedding of [CommandHandler] (registration, parsing,
    permission check, execution) and of [MessageSender.send_text] /
    [MessageSender.send_multiple] from [src/kook_api.py], followed by the
    properties of these functions.

    Conventions.
    - A Python [str] is a list of Unicode code points.
    - A [dict] keyed by strings is a [gmap str _]; a missing key is [None].
    - A call that may raise returns an [outcome]; [try ... except Exception]
      is a match on it.
    - Logger calls change none of the state modelled here and are omitted. *)

From Stdlib Require Import ZArith NArith List String Ascii Bool Lia.
From stdpp Require Import base option list gmap.
Import ListNotations.

(** ** Python strings *)

Definition char := N.
Definition str := list N.

(** An ASCII literal as a [str]. *)
Definition lit (s : string) : str := map N_of_ascii (list_ascii_of_string s).
Arguments lit : simpl never.

(** [str.isspace] on one code point: the code points CPython's
    [_PyUnicode_IsWhitespace] accepts.  [str.strip()] and [str.split()]
    without arguments use this predicate. *)
Definition isspace (c : char) : bool :=
  ((9 <=? c) && (c <=? 13) || (28 <=? c) && (c <=? 32)
   || (c =? 133) || (c =? 160) || (c =? 5760)
   || (8192 <=? c) && (c <=? 8202)
   || (c =? 8232) || (c =? 8233) || (c =? 8239) || (c =? 8287)
   || (c =? 12288))%N.

(** [s.startswith(p)] *)
Fixpoint str_startswith (s p : str) {struct p} : bool :=
  match p, s with
  | [], _ => true
  | _ :: _, [] => false
  | c :: p', d :: s' => (c =? d)%N && str_startswith s' p'
  end.

Fixpoint str_lstrip (s : str) : str :=
  match s with
  | [] => []
  | c :: s' => if isspace c then str_lstrip s' else s
  end.

Definition str_rstrip (s : str) : str := rev (str_lstrip (rev s)).

(** [s.strip()] *)
Definition str_strip (s : str) : str := str_rstrip (str_lstrip s).

(** [s.split()]: the maximal runs of non-whitespace code points, in order.
    [w] is the run being read. *)
Fixpoint str_words (w : str) (s : str) : list str :=
  match s with
  | [] => match w with [] => [] | _ => [w] end
  | c :: s' =>
      if isspace c
      then match w with [] => str_words [] s' | _ => w :: str_words [] s' end
      else str_words (w ++ [c]) s'
  end.

Definition str_split (s : str) : list str := str_words [] s.

(** [sep.join(l)] *)
Fixpoint str_join (sep : str) (l : list str) : str :=
  match l with
  | [] => []
  | [x] => x
  | x :: l' => x ++ sep ++ str_join sep l'
  end.

(** [needle in s] for strings. *)
Fixpoint str_contains (s needle : str) : bool :=
  str_startswith s needle ||
  match s with
  | [] => false
  | _ :: s' => str_contains s' needle
  end.

(** [str.lower()] on Basic Latin, where it maps A..Z to a..z and nothing
    else.  The full Unicode case table is a parameter of the model below;
    this instance is used to run the model on ASCII inputs. *)
Definition ascii_lower (s : str) : str :=
  map (fun c : N => if ((65 <=? c) && (c <=? 90))%N then (c + 32)%N else c) s.

(** [repr(s)] for a string without quotes, backslashes or non-printable
    code points: the string between single quotes. *)
Definition plain_repr (s : str) : str := lit "'" ++ s ++ lit "'".

(** ** Exceptions *)

Inductive exception :=
| KeyError (key : str)
| IndexError
| Exception (description : str).

Inductive outcome (A : Type) :=
| Ret (a : A)
| Raise (e : exception).
Arguments Ret {A} a.
Arguments Raise {A} e.

(** ** Fixed strings of the source *)

(** "未知命令: " *)
Definition unknown_command_msg : str := [26410; 30693; 21629; 20196; 58; 32]%N.
(** "命令无效" *)
Definition invalid_command_msg : str := [21629; 20196; 26080; 25928]%N.
(** "权限不足，无法执行此命令" *)
Definition permission_denied_msg : str :=
  [26435; 38480; 19981; 36275; 65292; 26080; 27861; 25191; 34892; 27492;
   21629; 20196]%N.
(** "执行命令 '" and "' 时出错: " *)
Definition exec_error_head : str := [25191; 34892; 21629; 20196; 32; 39]%N.
Definition exec_error_mid : str := [39; 32; 26102; 20986; 38169; 58; 32]%N.

(** ** CommandHandler: data *)

(** The callable stored under ['func'].  The three built-in handlers are
    bound methods that read the handler and probe the network; a handler
    supplied by the host is a function of [(args, raw_args)]. *)
Inductive builtin := Help | Status | Test.

Inductive callable :=
| Builtin (b : builtin)
| Host (f : list str -> str -> outcome str).

Record command_data := {
  func : callable;
  description : str;
  usage : str;
  permission_level : Z
}.

Record CommandHandler := {
  command_prefix : str;
  commands : gmap str command_data;
  aliases : gmap str str;
  permissions : gmap str Z
}.

(** The dict returned by [parse_command]; a field is [None] when the key
    is absent. *)
Record command_info := {
  is_command : option bool;
  valid : option bool;
  command_name : option str;
  original_name : option str;
  args : option (list str);
  raw_args : option str;
  error : option str
}.

(** ** CommandHandler: registration *)

(** [for alias in aliases: self.aliases[alias] = name] *)
Definition register_aliases (name : str) (als : list str) (m : gmap str str)
  : gmap str str :=
  foldl (fun m alias => <[alias := name]> m) m als.

(** [register_command]; the default of [aliases] is [None].  No statement
    of the [try] block can raise, so the [except] branch is unreachable. *)
Definition register_command (h : CommandHandler) (name : str) (f : callable)
    (descr usg : str) (als : option (list str)) (level : Z)
  : bool * CommandHandler :=
  let commands' :=
    <[name := {| func := f; description := descr; usage := usg;
                 permission_level := level |}]> (commands h) in
  let permissions' := <[name := level]> (permissions h) in
  let aliases' :=
    match als with
    | Some (a :: l) => register_aliases name (a :: l) (aliases h)
    | _ => aliases h
    end in
  (true, {| command_prefix := command_prefix h; commands := commands';
            aliases := aliases'; permissions := permissions' |}).

(** [[alias for alias, cmd_name in self.aliases.items() if cmd_name == name]] *)
Definition aliases_to_remove (name : str) (m : gmap str str) : list str :=
  (filter (fun kv : str * str => kv.2 = name) (map_to_list m)).*1.

(** [unregister_command].  [del self.permissions[name]] raises [KeyError]
    when the key is absent; the [except] branch then returns [False] with
    [self.commands] already changed. *)
Definition unregister_command (h : CommandHandler) (name : str)
  : bool * CommandHandler :=
  match commands h !! name with
  | None => (false, h)
  | Some _ =>
      let commands' := delete name (commands h) in
      match permissions h !! name with
      | None =>
          (false, {| command_prefix := command_prefix h; commands := commands';
                     aliases := aliases h; permissions := permissions h |})
      | Some _ =>
          let permissions' := delete name (permissions h) in
          let aliases' :=
            foldl (fun m alias => delete alias m) (aliases h)
                  (aliases_to_remove name (aliases h)) in
          (true, {| command_prefix := command_prefix h; commands := commands';
                    aliases := aliases'; permissions := permissions' |})
      end
  end.

(** [_register_builtin_commands] and [__init__]. *)
Definition _register_builtin_commands (h : CommandHandler) : CommandHandler :=
  let h := (register_command h (lit "help") (Builtin Help)
              [26174; 31034; 24110; 21161; 20449; 24687]%N
              [91; 21629; 20196; 21517; 93]%N
              (Some [lit "h"; [24110; 21161]%N]) 0).2 in
  let h := (register_command h (lit "status") (Builtin Status)
              [26174; 31034; 26426; 22120; 20154; 29366; 24577]%N []
              (Some [[29366; 24577]%N; lit "stat"]) 0).2 in
  (register_command h (lit "test") (Builtin Test)
     [27979; 35797; 26426; 22120; 20154; 36830; 25509]%N []
     (Some [[27979; 35797]%N]) 0).2.

Definition init (prefix : str) : CommandHandler :=
  _register_builtin_commands
    {| command_prefix := prefix; commands := ∅; aliases := ∅;
       permissions := ∅ |}.

(** A call of one of the two registry operations, and a run of calls. *)
Inductive registry_call :=
| Register (name : str) (f : callable) (descr usg : str)
           (als : option (list str)) (level : Z)
| Unregister (name : str).

Definition do_call (h : CommandHandler) (c : registry_call) : CommandHandler :=
  match c with
  | Register name f descr usg als level =>
      (register_command h name f descr usg als level).2
  | Unregister name => (unregister_command h name).2
  end.

Definition run_calls (h : CommandHandler) (cs : list registry_call)
  : CommandHandler :=
  foldl do_call h cs.

(** ** Raising computations *)

#[global] Instance outcome_ret : MRet outcome := fun _ a => Ret a.
#[global] Instance outcome_bind : MBind outcome := fun _ _ k c =>
  match c with
  | Ret a => k a
  | Raise e => Raise e
  end.

(** [d[key]] on a dict lookup result. *)
Definition index {A : Type} (key : str) (o : option A) : outcome A :=
  match o with
  | Some v => Ret v
  | None => Raise (KeyError key)
  end.

(** ** MessageSender: data *)

(** What [requests.post(...)] followed by [response.json()] yields: the
    decoded body's ['code'] entry, or an exception from either call. *)
Inductive response :=
| Response (code : option Z)
| TransportError (e : exception).

(** Observable steps of the sender, oldest first. *)
Inductive event :=
| SendText (content : str) (channel_id : option str)
| Post (channel_id content : str)
| Sleep.

Section Model.

(** [str.lower] and [repr] on arbitrary strings (Unicode tables of the
    interpreter). *)
Variable str_lower : str -> str.
Variable repr : str -> str.

(** The outcome of running a built-in handler in a given handler state. *)
Variable run_builtin :
  builtin -> CommandHandler -> list str -> str -> outcome str.

(** The remote end: its answer to a request, given what happened before. *)
Variable post : list event -> str -> str -> response.

(** [str(e)] *)
Definition describe (e : exception) : str :=
  match e with
  | KeyError key => repr key
  | IndexError => lit "list index out of range"
  | Exception d => d
  end.

(** [func(args, raw_args)] *)
Definition call (h : CommandHandler) (f : callable) (a : list str) (r : str)
  : outcome str :=
  match f with
  | Builtin b => run_builtin b h a r
  | Host g => g a r
  end.

(** *** parse_command *)

Definition not_a_command : command_info :=
  {| is_command := Some false; valid := None; command_name := None;
     original_name := None; args := None; raw_args := None; error := None |}.

Definition parse_command (h : CommandHandler) (message : str)
  : outcome command_info :=
  if negb (str_startswith message (command_prefix h)) then Ret not_a_command
  else
    let content := str_strip (drop (List.length (command_prefix h)) message) in
    match content with
    | [] => Ret not_a_command
    | _ :: _ =>
        let parts := str_split content in
        p0 ← match parts !! 0%nat with
             | Some p => Ret p
             | None => Raise IndexError
             end;
        let name := str_lower p0 in
        let a := if (1 <? List.length parts)%nat then drop 1 parts else [] in
        let actual_command := default name (aliases h !! name) in
        match commands h !! actual_command with
        | None =>
            Ret {| is_command := Some true; valid := Some false;
                   command_name := Some name; original_name := None;
                   args := None; raw_args := None;
                   error := Some (unknown_command_msg ++ name) |}
        | Some _ =>
            Ret {| is_command := Some true; valid := Some true;
                   command_name := Some actual_command;
                   original_name := Some name;
                   args := Some a; raw_args := Some (str_join (lit " ") a);
                   error := None |}
        end
    end.

(** *** _check_permission *)

(** [user_info]: [None], or a dict of flags. *)
Definition _check_permission (h : CommandHandler) (name : str)
    (user_info : option (gmap str bool)) : bool :=
  match permissions h !! name with
  | None => false
  | Some required_level =>
      if (required_level =? 0)%Z then true
      else
        match user_info with
        | None => false
        | Some u =>
            if decide (u = ∅) then false
            else if (required_level =? 1)%Z
                    && default false (u !! lit "is_admin") then true
            else if (required_level =? 2)%Z
                    && default false (u !! lit "is_super_admin") then true
            else false
        end
  end.

(** *** execute_command *)

Definition exec_error (name : str) (e : exception) : str :=
  exec_error_head ++ name ++ exec_error_mid ++ describe e.

Definition execute_command (h : CommandHandler) (ci : command_info)
    (user_info : option (gmap str bool)) : outcome str :=
  if negb (default false (valid ci))
  then Ret (default invalid_command_msg (error ci))
  else
    name ← index (lit "command_name") (command_name ci);
    if negb (_check_permission h name user_info)
    then Ret permission_denied_msg
    else
      let body : outcome str :=
        data ← index name (commands h !! name);
        a ← index (lit "args") (args ci);
        r ← index (lit "raw_args") (raw_args ci);
        call h (func data) a r in
      match body with
      | Ret result => Ret result
      | Raise e => Ret (exec_error name e)
      end.

(** *** MessageSender *)

(** [ConfigManager.get_channel_id] *)
Definition get_channel_id (config : gmap str (gmap str str)) : option str :=
  default ∅ (config !! lit "kook") !! lit "channel_id".

(** [not message or not message.strip()] *)
Definition blank (message : str) : bool :=
  match message with
  | [] => true
  | _ => match str_strip message with [] => true | _ => false end
  end.

(** [send_text]; every exit of the [try] block, and the [except] branch,
    returns a bool. *)
Definition send_text (config : gmap str (gmap str str)) (tr : list event)
    (content : str) (channel_id : option str) : bool * list event :=
  let tr := tr ++ [SendText content channel_id] in
  let channel_id :=
    match channel_id with
    | None => get_channel_id config
    | Some c => Some c
    end in
  match channel_id with
  | None | Some [] => (false, tr)
  | Some c =>
      if blank content then (false, tr)
      else
        let r := post tr c (str_strip content) in
        let tr := tr ++ [Post c (str_strip content)] in
        match r with
        | Response (Some 0%Z) => (true, tr)
        | _ => (false, tr)
        end
  end.

(** The loop of [send_multiple]: [i] is the 1-based position of the head
    of [messages], [n] is [len(messages)] of the whole input. *)
Fixpoint send_multiple_loop (config : gmap str (gmap str str)) (n i : nat)
    (messages : list str) (channel_id : option str)
    (results : gmap str bool) (tr : list event)
  : gmap str bool * list event :=
  match messages with
  | [] => (results, tr)
  | message :: rest =>
      if blank message
      then send_multiple_loop config n (S i) rest channel_id
             (<[message := false]> results) tr
      else
        let '(success, tr) := send_text config tr message channel_id in
        let results := <[message := success]> results in
        let tr := if (i <? n)%nat then tr ++ [Sleep] else tr in
        send_multiple_loop config n (S i) rest channel_id results tr
  end.

Definition send_multiple (config : gmap str (gmap str str)) (tr : list event)
    (messages : list str) (channel_id : option str)
  : gmap str bool * list event :=
  send_multiple_loop config (List.length messages) 1 messages channel_id ∅ tr.

(** *** process_message *)

Definition process_message (h : CommandHandler) (message : str)
    (user_info : option (gmap str bool)) : outcome str :=
  ci ← parse_command h message;
  is_cmd ← index (lit "is_command") (is_command ci);
  if negb is_cmd then Ret []
  else
    v ← index (lit "valid") (valid ci);
    if negb v then index (lit "error") (error ci)
    else execute_command h ci user_info.

(** *** send_formatted *)

(** The f-string of [send_formatted]: two asterisks, the title, two
    asterisks, a line feed, the content. *)
Definition formatted_message (title content : str) : str :=
  lit "**" ++ title ++ lit "**" ++ [10%N] ++ content.

Definition send_formatted (config : gmap str (gmap str str)) (tr : list event)
    (title content : str) (channel_id : option str) : bool * list event :=
  send_text config tr (formatted_message title content) channel_id.

End Model.

(** The contents passed to [send_text], and the requests posted, in order. *)
Definition text_calls (tr : list event) : list str :=
  omap (fun e => match e with SendText c _ => Some c | _ => None end) tr.

Definition posts (tr : list event) : list (str * str) :=
  omap (fun e => match e with Post ch c => Some (ch, c) | _ => None end) tr.

(** ** CommandHandler: prefix and command information *)

(** [set_command_prefix] *)
Definition set_command_prefix (h : CommandHandler) (prefix : str)
  : bool * CommandHandler :=
  match prefix with
  | [] => (false, h)
  | _ :: _ =>
      if (3 <? List.length prefix)%nat then (false, h)
      else (true, {| command_prefix := prefix; commands := commands h;
                     aliases := aliases h; permissions := permissions h |})
  end.

(** The dict built by [get_command_info] and [get_command_list]. *)
Record command_summary := {
  info_name : str;
  info_description : str;
  info_usage : str;
  info_permission_level : Z;
  info_aliases : list str
}.

(** [[alias for alias, cmd_name in self.aliases.items() if cmd_name == name]];
    the aliases come in the order in which the map enumerates its keys. *)
Definition aliases_of (name : str) (m : gmap str str) : list str :=
  (filter (fun kv : str * str => kv.2 = name) (map_to_list m)).*1.

Definition summary (h : CommandHandler) (name : str) (data : command_data)
  : command_summary :=
  {| info_name := name; info_description := description data;
     info_usage := usage data;
     info_permission_level := permission_level data;
     info_aliases := aliases_of name (aliases h) |}.

(** [get_command_info] *)
Definition get_command_info (h : CommandHandler) (command_name : str)
  : option command_summary :=
  let actual_command := default command_name (aliases h !! command_name) in
  match commands h !! actual_command with
  | None => None
  | Some data => Some (summary h actual_command data)
  end.

(** [get_command_list]; the entries come in the order in which the map
    enumerates its keys. *)
Definition get_command_list (h : CommandHandler) : list command_summary :=
  (fun kv : str * command_data => summary h kv.1 kv.2)
    <$> map_to_list (commands h).

(** ** ConfigManager and KookAPI: configuration *)

(** [bool(x)] for an optional string. *)
Definition truthy (o : option str) : bool :=
  match o with
  | Some (_ :: _) => true
  | _ => false
  end.

(** [ConfigManager.get_bot_token] *)
Definition get_bot_token (config : gmap str (gmap str str)) : option str :=
  default ∅ (config !! lit "kook") !! lit "bot_token".

(** [ConfigManager.get_server_id] *)
Definition get_server_id (config : gmap str (gmap str str)) : option str :=
  if truthy (get_channel_id config) then get_channel_id config else None.

(** [ConfigManager.validate_config] *)
Definition validate_config (config : gmap str (gmap str str))
  : gmap str bool :=
  <[lit "channel_id" := truthy (get_channel_id config)]>
    (<[lit "bot_token" := truthy (get_bot_token config)]> ∅).

(** The part of a [KookAPI] object that the setters change: the config
    dict (shared with its [ConfigManager]) and the request headers. *)
Record KookAPI := {
  config : gmap str (gmap str str);
  headers : gmap str str
}.

(** [KookAPI.__init__] *)
Definition new_api (cfg : gmap str (gmap str str)) : KookAPI :=
  {| config := cfg;
     headers :=
       <[lit "Content-Type" := lit "application/json"]>
         (<[lit "Authorization" :=
              lit "Bot " ++ (if truthy (get_bot_token cfg)
                             then default [] (get_bot_token cfg) else [])]> ∅)
  |}.

(** [KookAPI.set_bot_token]: [config['kook']] raises [KeyError] when the
    section is missing, before anything is written. *)
Definition set_bot_token (k : KookAPI) (token : str) : bool * KookAPI :=
  match config k !! lit "kook" with
  | None => (false, k)
  | Some section =>
      (true, {| config := <[lit "kook" := <[lit "bot_token" := token]> section]>
                            (config k);
                headers := <[lit "Authorization" := lit "Bot " ++ token]>
                             (headers k) |})
  end.

(** [KookAPI.set_channel_id] *)
Definition set_channel_id (k : KookAPI) (channel_id : str) : bool * KookAPI :=
  match config k !! lit "kook" with
  | None => (false, k)
  | Some section =>
      (true, {| config := <[lit "kook" := <[lit "channel_id" := channel_id]>
                                            section]> (config k);
                headers := headers k |})
  end.

(** A call of one of the two setters, and a run of calls. *)
Inductive api_call :=
| SetBotToken (token : str)
| SetChannelId (channel_id : str).

Definition do_api_call (k : KookAPI) (c : api_call) : KookAPI :=
  match c with
  | SetBotToken token => (set_bot_token k token).2
  | SetChannelId channel_id => (set_channel_id k channel_id).2
  end.

Definition run_api_calls (k : KookAPI) (cs : list api_call) : KookAPI :=
  foldl do_api_call k cs.

(** ** Auxiliary notions for the properties *)

(** [self.aliases.get(token, token)], the alias lookup of [parse_command],
    [get_command_info] and the help command. *)
Definition resolve (h : CommandHandler) (token : str) : str :=
  default token (aliases h !! token).

(** A token: non-empty and free of whitespace. *)
Definition is_token (t : str) : Prop :=
  t ≠ [] ∧ Forall (fun c => isspace c = false) t.

(** The number of pacing delays in a trace. *)
Definition sleeps (tr : list event) : nat :=
  List.length
    (omap (fun e => match e with Sleep => Some tt | _ => None end) tr).

(** In a consistent registry the level stored with a definition is the
    level the permission check uses. *)
Definition levels_agree (h : CommandHandler) : Prop :=
  ∀ n d, commands h !! n = Some d →
         permissions h !! n = Some (permission_level d).

(** The [Authorization] header carries the configured token. *)
Definition header_matches (k : KookAPI) : Prop :=
  headers k !! lit "Authorization"
  = Some (lit "Bot " ++ default [] (get_bot_token (config k))).

(** The entries of a batch that [send_multiple] passes to [send_text]. *)
Definition sendable (messages : list str) : list str :=
  filter (fun m => blank m = false) messages.

(** The handler [h] with its [commands] dict replaced. *)
Definition with_commands (h : CommandHandler) (cmds : gmap str command_data)
  : CommandHandler :=
  {| command_prefix := command_prefix h; commands := cmds;
     aliases := aliases h; permissions := permissions h |}.

(** The channel a send uses: the argument, else the configured one; a
    missing or empty id is refused before any request. *)
Definition usable_channel (config : gmap str (gmap str str))
    (channel_id : option str) : option str :=
  match (match channel_id with
         | None => get_channel_id config
         | Some c => Some c
         end) with
  | None | Some [] => None
  | Some c => Some c
  end.

(** The events that one [send_text] call on a non-blank [message] adds to
    the trace: the call, and the request when a channel id is available. *)
Definition send_events (config : gmap str (gmap str str))
    (channel_id : option str) (message : str) : list event :=
  SendText message channel_id
  :: match usable_channel config channel_id with
     | Some k => [Post k (str_strip message)]
     | None => []
     end.


(** The registry is consistent when every alias points to a registered
    command and [commands] and [permissions] have the same keys. *)
Definition consistent (h : CommandHandler) : Prop :=
  (∀ a c, aliases h !! a = Some c → is_Some (commands h !! c))
  ∧ dom (commands h) = dom (permissions h).

(** ** Sample values used to run the model *)

(** [CommandHandler(kook_api)] with the default prefix. *)
Definition fresh_handler : CommandHandler := init (lit "!").

Definition sample_builtin
  : builtin -> CommandHandler -> list str -> str -> outcome str :=
  fun _ _ _ _ => Ret (lit "ok").

Definition pong : callable := Host (fun _ _ => Ret (lit "pong")).
Definition failing : callable := Host (fun _ _ => Raise (Exception (lit "boom"))).

(** A handler with a level-1 command [kick] and a level-0 command [crash]
    whose handler raises. *)
Definition sample_handler : CommandHandler :=
  (register_command
     (register_command fresh_handler (lit "kick") pong [] [] None 1).2
     (lit "crash") failing [] [] None 0).2.

(** A valid invocation of [name] without arguments. *)
Definition invocation (name : str) : command_info :=
  {| is_command := Some true; valid := Some true; command_name := Some name;
     original_name := Some name; args := Some []; raw_args := Some [];
     error := None |}.

(** A caller with [is_super_admin] set and [is_admin] cleared. *)
Definition super_admin_only : gmap str bool :=
  {[ lit "is_super_admin" := true; lit "is_admin" := false ]}.

(** A caller with both flags set. *)
Definition full_caller : gmap str bool :=
  {[ lit "is_super_admin" := true; lit "is_admin" := true ]}.

(** A handler with a command [odd] registered at level 7. *)
Definition level7_handler : CommandHandler :=
  (register_command fresh_handler (lit "odd") pong [] [] None 7).2.

(** After construction, a command [foo] registered with the alias [help],
    which is also the name of a built-in command. *)
Definition shadow_handler : CommandHandler :=
  run_calls (init (lit "!"))
    [Register (lit "foo") pong [] [] (Some [lit "help"]) 0].

Definition sample_config : gmap str (gmap str str) :=
  {[ lit "kook" := {[ lit "channel_id" := lit "c1" ]} ]}.

Definition accepting_post : list event -> str -> str -> response :=
  fun _ _ _ => Response (Some 0%Z).

(** * Properties *)

(** ** Strings *)

Lemma str_startswith_app (p s : str) : str_startswith (p ++ s) p = true.
Proof.
  induction p as [|c p IH]; simpl; [done|].
  by rewrite N.eqb_refl.
Qed.

Lemma str_contains_self_app (b c : str) : str_contains (b ++ c) b = true.
Proof.
  destruct b as [|x b]; [by destruct c|].
  change (str_contains ((x :: b) ++ c) (x :: b))
    with (str_startswith ((x :: b) ++ c) (x :: b)
          || str_contains (b ++ c) (x :: b)).
  by rewrite str_startswith_app.
Qed.

Lemma str_contains_middle (a b c : str) : str_contains (a ++ b ++ c) b = true.
Proof.
  induction a as [|x a IH]; [exact (str_contains_self_app b c)|].
  change (str_contains ((x :: a) ++ b ++ c) b)
    with (str_startswith ((x :: a) ++ b ++ c) b || str_contains (a ++ b ++ c) b).
  rewrite IH. apply orb_true_r.
Qed.

Lemma str_contains_suffix (a b : str) : str_contains (a ++ b) b = true.
Proof.
  rewrite <- (app_nil_r b) at 1. apply str_contains_middle.
Qed.

Lemma str_lstrip_head (s : str) c t :
  str_lstrip s = c :: t → isspace c = false.
Proof.
  induction s as [|d s IH]; simpl; [done|].
  destruct (isspace d) eqn:E; [done|].
  intros [= <- _]. done.
Qed.

Lemma str_rstrip_has_word_char (s : str) :
  str_rstrip s ≠ [] → ∃ c, c ∈ str_rstrip s ∧ isspace c = false.
Proof.
  unfold str_rstrip. destruct (str_lstrip (rev s)) as [|c t] eqn:E; [done|].
  intros _. exists c. split.
  - simpl. apply elem_of_app. right. apply list_elem_of_singleton. done.
  - by eapply str_lstrip_head.
Qed.

Lemma str_words_nonempty (s w : str) :
  w ≠ [] ∨ (∃ c, c ∈ s ∧ isspace c = false) → str_words w s ≠ [].
Proof.
  revert w. induction s as [|d s IH]; intros w H; simpl.
  - destruct H as [H|(c & Hc & _)]; [by destruct w|by apply elem_of_nil in Hc].
  - destruct (isspace d) eqn:E.
    + destruct w as [|x w]; [|done].
      apply IH. right. destruct H as [H|(c & Hc & Hs)]; [done|].
      apply elem_of_cons in Hc as [->|Hc]; [congruence|eauto].
    + apply IH. left. by destruct w.
Qed.

(** The split of a non-empty stripped string has a first token. *)
Lemma str_split_strip_nonempty (s : str) :
  str_strip s ≠ [] → str_split (str_strip s) ≠ [].
Proof.
  intros H. apply str_words_nonempty. right.
  by apply str_rstrip_has_word_char.
Qed.

(** ** Registry lemmas *)

Lemma lookup_register_aliases (name : str) (als : list str)
    (m : gmap str str) (a : str) :
  register_aliases name als m !! a
  = if decide (a ∈ als) then Some name else m !! a.
Proof.
  unfold register_aliases. revert m.
  induction als as [|x als IH]; intros m.
  - rewrite decide_False; [done|]. apply not_elem_of_nil.
  - cbn [foldl]. rewrite IH.
    destruct (decide (a ∈ als)) as [Hin|Hin].
    + rewrite decide_True; [done|]. by right.
    + destruct (decide (a = x)) as [->|Hne].
      * rewrite decide_True; [|by left]. by rewrite lookup_insert_eq.
      * rewrite decide_False; [by rewrite lookup_insert_ne|].
        by intros [?|?]%elem_of_cons.
Qed.

Lemma lookup_foldl_delete (l : list str) (m : gmap str str) (a : str) :
  foldl (fun m alias => delete alias m) m l !! a
  = if decide (a ∈ l) then None else m !! a.
Proof.
  revert m. induction l as [|x l IH]; intros m.
  - rewrite decide_False; [done|]. apply not_elem_of_nil.
  - cbn [foldl]. rewrite IH.
    destruct (decide (a ∈ l)) as [Hin|Hin].
    + rewrite decide_True; [done|]. by right.
    + destruct (decide (a = x)) as [->|Hne].
      * rewrite decide_True; [|by left]. by rewrite lookup_delete_eq.
      * rewrite decide_False; [by rewrite lookup_delete_ne|].
        by intros [?|?]%elem_of_cons.
Qed.

Lemma elem_of_aliases_to_remove (name : str) (m : gmap str str) (a : str) :
  a ∈ aliases_to_remove name m ↔ m !! a = Some name.
Proof.
  unfold aliases_to_remove. rewrite list_elem_of_fmap. split.
  - intros ([a' c] & -> & H). apply list_elem_of_filter in H as [Hc H].
    apply elem_of_map_to_list in H. simpl in *. by subst.
  - intros H. exists (a, name). split; [done|].
    apply list_elem_of_filter. split; [done|]. by apply elem_of_map_to_list.
Qed.

(** The alias map after a successful [unregister_command]. *)
Lemma lookup_aliases_removed (name : str) (m : gmap str str) (a : str) :
  foldl (fun m alias => delete alias m) m (aliases_to_remove name m) !! a
  = if decide (m !! a = Some name) then None else m !! a.
Proof.
  rewrite lookup_foldl_delete.
  destruct (decide (m !! a = Some name)) as [H|H].
  - rewrite decide_True; [done|]. by apply elem_of_aliases_to_remove.
  - rewrite decide_False; [done|]. by rewrite elem_of_aliases_to_remove.
Qed.

Lemma register_command_fields (h : CommandHandler) (name : str) (f : callable)
    (descr usg : str) (als : option (list str)) (level : Z) :
  let h' := (register_command h name f descr usg als level).2 in
  commands h' = <[name := {| func := f; description := descr; usage := usg;
                              permission_level := level |}]> (commands h)
  ∧ permissions h' = <[name := level]> (permissions h)
  ∧ command_prefix h' = command_prefix h
  ∧ ∀ a, aliases h' !! a
         = if decide (a ∈ default [] als) then Some name else aliases h !! a.
Proof.
  cbn. repeat split. intros a.
  destruct als as [[|x l]|]; cbn [default].
  - rewrite decide_False; [done|]. apply not_elem_of_nil.
  - exact (lookup_register_aliases name (x :: l) (aliases h) a).
  - rewrite decide_False; [done|]. apply not_elem_of_nil.
Qed.

Lemma consistent_register (h : CommandHandler) (name : str) (f : callable)
    (descr usg : str) (als : option (list str)) (level : Z) :
  consistent h →
  consistent (register_command h name f descr usg als level).2.
Proof.
  intros [Hal Hdom].
  destruct (register_command_fields h name f descr usg als level)
    as (Hc & Hp & _ & Ha).
  split.
  - intros a c. rewrite Ha, Hc. case_decide.
    + intros [= <-]. rewrite lookup_insert_eq. eauto.
    + intros Hac. apply lookup_insert_is_Some'. right. eauto.
  - rewrite Hc, Hp, !dom_insert_L. by rewrite Hdom.
Qed.

Lemma unregister_command_absent (h : CommandHandler) (name : str) :
  commands h !! name = None → unregister_command h name = (false, h).
Proof. intros H. unfold unregister_command. by rewrite H. Qed.

Lemma unregister_command_present (h : CommandHandler) (name : str) :
  consistent h →
  is_Some (commands h !! name) →
  unregister_command h name
  = (true, {| command_prefix := command_prefix h;
              commands := delete name (commands h);
              aliases := foldl (fun m alias => delete alias m) (aliases h)
                               (aliases_to_remove name (aliases h));
              permissions := delete name (permissions h) |}).
Proof.
  intros [_ Hdom] Hc. unfold unregister_command.
  assert (is_Some (permissions h !! name)) as [lvl Hp].
  { apply elem_of_dom. rewrite <- Hdom. by apply elem_of_dom. }
  destruct Hc as [d Hc]. by rewrite Hc, Hp.
Qed.

Lemma consistent_unregister (h : CommandHandler) (name : str) :
  consistent h → consistent (unregister_command h name).2.
Proof.
  intros Hh. destruct (commands h !! name) as [d|] eqn:Hc.
  - rewrite unregister_command_present; [|done|by rewrite Hc].
    destruct Hh as [Hal Hdom]. split; cbn.
    + intros a c. rewrite lookup_aliases_removed. case_decide as Hn; [done|].
      intros Hac. rewrite lookup_delete_ne; [eauto|]. congruence.
    + rewrite !dom_delete_L. by rewrite Hdom.
  - by rewrite unregister_command_absent.
Qed.

Lemma consistent_init (prefix : str) : consistent (init prefix).
Proof.
  unfold init, _register_builtin_commands.
  do 3 apply consistent_register.
  split; cbn.
  - intros a c. by rewrite lookup_empty.
  - by rewrite !dom_empty_L.
Qed.

Lemma consistent_do_call (h : CommandHandler) (c : registry_call) :
  consistent h → consistent (do_call h c).
Proof.
  destruct c; cbn [do_call];
    [apply consistent_register|apply consistent_unregister].
Qed.

Lemma consistent_run_calls (h : CommandHandler) (cs : list registry_call) :
  consistent h → consistent (run_calls h cs).
Proof.
  unfold run_calls. revert h.
  induction cs as [|c cs IH]; intros h Hh; cbn [foldl]; [done|].
  by apply IH, consistent_do_call.
Qed.

(** ** Registration *)

(** C3 (as the code has it): [register_command] checks neither the name
    nor the permission level.  Every call returns [True]; afterwards [name]
    is bound to the new definition (replacing any earlier one) and to the
    given level, every listed alias points to [name], and the other
    entries are as before. *)
Theorem register_command_always_succeeds (h : CommandHandler) (name : str)
    (f : callable) (descr usg : str) (als : option (list str)) (level : Z) :
  ∃ h', register_command h name f descr usg als level = (true, h')
    ∧ commands h' !! name
      = Some {| func := f; description := descr; usage := usg;
                permission_level := level |}
    ∧ permissions h' !! name = Some level
    ∧ (∀ a, a ∈ default [] als → aliases h' !! a = Some name)
    ∧ (∀ n, n ≠ name → commands h' !! n = commands h !! n
                       ∧ permissions h' !! n = permissions h !! n)
    ∧ (∀ a, a ∉ default [] als → aliases h' !! a = aliases h !! a).
Proof.
  destruct (register_command_fields h name f descr usg als level)
    as (Hc & Hp & _ & Ha).
  exists (register_command h name f descr usg als level).2.
  split; [reflexivity|]. rewrite Hc, Hp. repeat split.
  - apply lookup_insert_eq.
  - apply lookup_insert_eq.
  - intros a Hin. by rewrite Ha, decide_True.
  - by rewrite lookup_insert_ne.
  - by rewrite lookup_insert_ne.
  - intros a Hin. by rewrite Ha, decide_False.
Qed.

(** C3, counterexample: an empty name with level 7 is accepted by a fresh
    handler and stored. *)
Lemma register_command_accepts_empty_name_and_level_7 :
  (register_command fresh_handler [] pong [] [] None 7).1 = true
  ∧ (func <$> commands (register_command fresh_handler [] pong [] [] None 7).2
              !! []) = Some pong
  ∧ permissions (register_command fresh_handler [] pong [] [] None 7).2 !! []
    = Some 7%Z.
Proof. vm_compute. done. Qed.

(** ** Unregistration *)

(** C7 (as the code has it): on a handler reached from construction by
    register and unregister calls, [unregister_command name] returns
    [False] and changes nothing when [name] is not registered; when it is,
    the call returns [True], the definition and the permission of [name]
    are gone, every alias-map entry that pointed to [name] is gone, the
    other entries are kept, and every entry left points to a command other
    than [name] that is still defined.  A token that was an alias of
    [name] then resolves, through [aliases.get(token, token)], to itself:
    it names a still-defined command exactly when the token is itself the
    name of another registered command. *)
Theorem unregister_command_spec (prefix : str) (cs : list registry_call)
    (name : str) :
  let h := run_calls (init prefix) cs in
  (commands h !! name = None → unregister_command h name = (false, h))
  ∧ (is_Some (commands h !! name) →
     ∃ h', unregister_command h name = (true, h')
       ∧ commands h' = delete name (commands h)
       ∧ permissions h' = delete name (permissions h)
       ∧ (∀ a, aliases h !! a = Some name → aliases h' !! a = None)
       ∧ (∀ a, aliases h !! a ≠ Some name → aliases h' !! a = aliases h !! a)
       ∧ (∀ a c, aliases h' !! a = Some c →
                 c ≠ name ∧ is_Some (commands h' !! c))
       ∧ (∀ a, aliases h !! a = Some name →
               resolve h' a = a
               ∧ (is_Some (commands h' !! resolve h' a)
                  ↔ a ≠ name ∧ is_Some (commands h !! a)))).
Proof.
  intros h.
  assert (consistent h) as Hh by apply consistent_run_calls, consistent_init.
  split; [apply unregister_command_absent|].
  intros Hc. eexists. split; [by apply unregister_command_present|].
  cbn. do 2 (split; [done|]). split; [|split; [|split]].
  - intros a Ha. by rewrite lookup_aliases_removed, decide_True.
  - intros a Ha. by rewrite lookup_aliases_removed, decide_False.
  - intros a c. rewrite lookup_aliases_removed. case_decide as Hn; [done|].
    intros Hac. split; [congruence|].
    rewrite lookup_delete_ne; [|congruence]. by eapply (proj1 Hh).
  - intros a Ha. unfold resolve. cbn [aliases].
    rewrite lookup_aliases_removed, decide_True by done.
    cbn [default from_option]. split; [done|].
    unfold is_Some. setoid_rewrite lookup_delete_Some. naive_solver.
Qed.

(** C7, counterexample: [help] is an alias of [foo] and also a built-in
    command.  After [foo] is unregistered, the alias lookup of [help]
    yields [help], which is still defined. *)
Lemma unregister_command_alias_token_still_resolves :
  aliases shadow_handler !! lit "help" = Some (lit "foo")
  ∧ (unregister_command shadow_handler (lit "foo")).1 = true
  ∧ resolve (unregister_command shadow_handler (lit "foo")).2 (lit "help")
    = lit "help"
  ∧ (func <$> commands (unregister_command shadow_handler (lit "foo")).2
              !! lit "help") = Some (Builtin Help).
Proof. vm_compute. done. Qed.

(** ** Registry invariant *)

(** C9: after construction and any sequence of [register_command] and
    [unregister_command] calls, every alias maps to a registered command
    and [commands] and [permissions] have the same keys. *)
Theorem registry_consistent (prefix : str) (cs : list registry_call) :
  let h := run_calls (init prefix) cs in
  (∀ a c, aliases h !! a = Some c → is_Some (commands h !! c))
  ∧ dom (commands h) = dom (permissions h).
Proof. apply consistent_run_calls, consistent_init. Qed.

Section Properties.

Variable str_lower : str -> str.
Variable repr : str -> str.
Variable run_builtin :
  builtin -> CommandHandler -> list str -> str -> outcome str.
Variable post : list event -> str -> str -> response.

(** ** Parsing *)

Lemma parse_command_not_command (h : CommandHandler) (m : str) :
  str_startswith m (command_prefix h) = false
  ∨ str_strip (drop (List.length (command_prefix h)) m) = [] →
  parse_command str_lower h m = Ret not_a_command.
Proof.
  unfold parse_command. intros [H|H].
  - by rewrite H.
  - rewrite H. by destruct (str_startswith _ _).
Qed.

Lemma parse_command_tokens (h : CommandHandler) (m tok : str)
    (rest : list str) :
  str_startswith m (command_prefix h) = true →
  str_split (str_strip (drop (List.length (command_prefix h)) m))
  = tok :: rest →
  parse_command str_lower h m
  = Ret match commands h !! default (str_lower tok)
                                    (aliases h !! str_lower tok) with
        | None =>
            {| is_command := Some true; valid := Some false;
               command_name := Some (str_lower tok); original_name := None;
               args := None; raw_args := None;
               error := Some (unknown_command_msg ++ str_lower tok) |}
        | Some _ =>
            {| is_command := Some true; valid := Some true;
               command_name := Some (default (str_lower tok)
                                             (aliases h !! str_lower tok));
               original_name := Some (str_lower tok);
               args := Some rest;
               raw_args := Some (str_join (lit " ") rest);
               error := None |}
        end.
Proof.
  intros Hp Hs. unfold parse_command. rewrite Hp. cbn [negb].
  destruct (str_strip _) as [|c content] eqn:Hc; [done|].
  rewrite Hs. cbn [lookup list_lookup mbind outcome_bind].
  assert ((if (1 <? List.length (tok :: rest))%nat
           then drop 1 (tok :: rest) else []) = rest) as ->.
  { by destruct rest. }
  by destruct (commands h !! _).
Qed.

(** [parse_command] returns on every message: [parts[0]] exists. *)
Lemma parse_command_cases (h : CommandHandler) (m : str) :
  (str_startswith m (command_prefix h) = true
   ∧ ∃ tok rest,
       str_split (str_strip (drop (List.length (command_prefix h)) m))
       = tok :: rest)
  ∨ (str_startswith m (command_prefix h) = false
     ∨ str_strip (drop (List.length (command_prefix h)) m) = []).
Proof.
  destruct (str_startswith m (command_prefix h)); [|by right; left].
  destruct (str_strip (drop (List.length (command_prefix h)) m)) eqn:Hc;
    [by right; right|].
  left. split; [done|]. rewrite <- Hc.
  destruct (str_split _) eqn:Hs; [|eauto].
  exfalso. by eapply str_split_strip_nonempty; [|exact Hs]; rewrite Hc.
Qed.

(** C4 (as the code has it): [parse_command] returns on every message,
    and ['is_command'] is [True] exactly when the message itself (not
    trimmed) starts with the prefix and what follows the prefix is
    non-empty after trimming. *)
Theorem parse_command_is_command (h : CommandHandler) (m : str) :
  ∃ ci, parse_command str_lower h m = Ret ci
    ∧ (is_command ci = Some true
       ↔ str_startswith m (command_prefix h) = true
         ∧ str_strip (drop (List.length (command_prefix h)) m) ≠ []).
Proof.
  destruct (parse_command_cases h m) as [(Hp & tok & rest & Hs)|H].
  - rewrite (parse_command_tokens h m tok rest Hp Hs).
    eexists. split; [reflexivity|].
    assert (str_strip (drop (List.length (command_prefix h)) m) ≠ []).
    { intros E. by rewrite E in Hs. }
    by destruct (commands h !! _).
  - rewrite (parse_command_not_command h m H).
    eexists. split; [reflexivity|]. cbn. split; [done|].
    intros [Hp Hc]. destruct H; congruence.
Qed.

(** C5 (as the code has it): when the first token, lower-cased and
    passed through the alias map, is not a registered command, the
    result has [valid = False] and its error string is the fixed text
    followed by the lower-cased token, the form before alias resolution.
    With prefix [!], for a token [unknown] that is neither a command nor
    an alias of one, the error string contains [unknown]. *)
Theorem parse_command_unknown_names_lowered_token (h : CommandHandler) :
  (∀ m tok rest,
     str_startswith m (command_prefix h) = true →
     str_split (str_strip (drop (List.length (command_prefix h)) m))
     = tok :: rest →
     commands h !! default (str_lower tok) (aliases h !! str_lower tok)
     = None →
     ∃ ci, parse_command str_lower h m = Ret ci
       ∧ is_command ci = Some true
       ∧ valid ci = Some false
       ∧ command_name ci = Some (str_lower tok)
       ∧ error ci = Some (unknown_command_msg ++ str_lower tok))
  ∧ (command_prefix h = lit "!" →
     str_lower (lit "unknown") = lit "unknown" →
     commands h !! default (lit "unknown") (aliases h !! lit "unknown")
     = None →
     ∃ ci e, parse_command str_lower h (lit "!unknown") = Ret ci
       ∧ valid ci = Some false
       ∧ error ci = Some e
       ∧ str_contains e (lit "unknown") = true).
Proof.
  split.
  - intros m tok rest Hp Hs Hc.
    rewrite (parse_command_tokens h m tok rest Hp Hs), Hc.
    eexists. by repeat split.
  - intros Hpre Hlow Hc.
    rewrite (parse_command_tokens h (lit "!unknown") (lit "unknown") []).
    + rewrite Hlow, Hc. do 2 eexists.
      do 3 (split; [reflexivity|]). apply str_contains_suffix.
    + by rewrite Hpre.
    + by rewrite Hpre.
Qed.

(** C6: for every registry state and message, [parse_command] returns a
    result in which [valid = True] implies [is_command = True], and a
    present ['error'] implies [is_command = True] and [valid = False]. *)
Theorem parse_command_invariant (h : CommandHandler) (m : str) :
  ∃ ci, parse_command str_lower h m = Ret ci
    ∧ (valid ci = Some true → is_command ci = Some true)
    ∧ (is_Some (error ci) →
       is_command ci = Some true ∧ valid ci = Some false).
Proof.
  destruct (parse_command_cases h m) as [(Hp & tok & rest & Hs)|H].
  - rewrite (parse_command_tokens h m tok rest Hp Hs).
    eexists. split; [reflexivity|].
    destruct (commands h !! _); cbn; split; done.
  - rewrite (parse_command_not_command h m H).
    eexists. split; [reflexivity|]. cbn. split; [done|]. by intros [? [=]].
Qed.

(** ** Permission check and execution *)

Lemma check_permission_level (h : CommandHandler) (name : str) (tier : Z)
    (user : option (gmap str bool)) :
  permissions h !! name = Some tier →
  _check_permission h name user
  = ((tier =? 0)%Z
     || match user with
        | Some u =>
            (tier =? 1)%Z && default false (u !! lit "is_admin")
            || (tier =? 2)%Z && default false (u !! lit "is_super_admin")
        | None => false
        end).
Proof.
  intros H. unfold _check_permission. rewrite H.
  destruct (tier =? 0)%Z; [done|]. destruct user as [u|]; [|done].
  case_decide as E.
  - subst u. rewrite !lookup_empty. cbn. by rewrite !andb_false_r.
  - destruct (_ && _); [done|]. by destruct (_ && _).
Qed.

Lemma check_permission_unregistered (h : CommandHandler) (name : str)
    (user : option (gmap str bool)) :
  permissions h !! name = None → _check_permission h name user = false.
Proof. intros H. unfold _check_permission. by rewrite H. Qed.

(** [execute_command] on an invocation with [valid = True] and a command
    name. *)
Lemma execute_command_valid (h : CommandHandler) (ci : command_info)
    (user : option (gmap str bool)) (name : str) :
  valid ci = Some true →
  command_name ci = Some name →
  execute_command repr run_builtin h ci user
  = if negb (_check_permission h name user) then Ret permission_denied_msg
    else match (data ← index name (commands h !! name);
                a ← index (lit "args") (args ci);
                r ← index (lit "raw_args") (raw_args ci);
                call run_builtin h (func data) a r) with
         | Ret result => Ret result
         | Raise e => Ret (exec_error repr name e)
         end.
Proof.
  intros Hv Hn. unfold execute_command. by rewrite Hv, Hn.
Qed.

(** C1: for an invocation with [valid = True] naming a command whose
    permission level is [tier], the check passes at level 0; at level 1
    it passes exactly when a caller is given whose [is_admin] is [True];
    at level 2 exactly when a caller is given whose [is_super_admin] is
    [True].  A caller with [is_super_admin] but without [is_admin] fails
    at level 1, no caller passes only level 0, and a failed check makes
    [execute_command] return the fixed permission-denied string. *)
Theorem check_permission_gating (h : CommandHandler) (ci : command_info)
    (name : str) (tier : Z) (user : option (gmap str bool)) :
  permissions h !! name = Some tier →
  valid ci = Some true →
  command_name ci = Some name →
  (tier = 0%Z → _check_permission h name user = true)
  ∧ (tier = 1%Z →
     (_check_permission h name user = true
      ↔ ∃ u, user = Some u ∧ u !! lit "is_admin" = Some true))
  ∧ (tier = 2%Z →
     (_check_permission h name user = true
      ↔ ∃ u, user = Some u ∧ u !! lit "is_super_admin" = Some true))
  ∧ (tier = 1%Z →
     ∀ u, user = Some u →
          u !! lit "is_super_admin" = Some true →
          u !! lit "is_admin" ≠ Some true →
          _check_permission h name user = false)
  ∧ (user = None → (_check_permission h name user = true ↔ tier = 0%Z))
  ∧ (_check_permission h name user = false →
     execute_command repr run_builtin h ci user = Ret permission_denied_msg).
Proof.
  intros Hp Hv Hn. rewrite (check_permission_level h name tier user Hp).
  repeat apply conj.
  - by intros ->.
  - intros ->. destruct user as [u|]; [|by split; [|intros (? & [=] & _)]].
    destruct (u !! lit "is_admin") as [[]|] eqn:E; cbn;
      (split; [|intros (? & [= <-] & ?)]); try done; try congruence.
    intros _. by exists u.
  - intros ->. destruct user as [u|]; [|by split; [|intros (? & [=] & _)]].
    destruct (u !! lit "is_super_admin") as [[]|] eqn:E; cbn;
      (split; [|intros (? & [= <-] & ?)]); try done; try congruence.
    intros _. by exists u.
  - intros -> u -> _ Ha. cbn.
    by destruct (u !! lit "is_admin") as [[]|].
  - intros ->. rewrite orb_false_r. apply Z.eqb_eq.
  - intros Hc. rewrite (execute_command_valid h ci user name Hv Hn).
    by rewrite (check_permission_level h name tier user Hp), Hc.
Qed.

(** C2: for an invocation with [valid = True] that passes the permission
    check, [execute_command] returns a string whatever the handler does;
    when the handler raises [e], the returned string is the error text
    built from the command name and [str(e)], which contains both. *)
Theorem execute_command_contains_handler_failure (h : CommandHandler)
    (ci : command_info) (user : option (gmap str bool)) (name : str)
    (data : command_data) (a : list str) (r : str) :
  valid ci = Some true →
  command_name ci = Some name →
  args ci = Some a →
  raw_args ci = Some r →
  _check_permission h name user = true →
  commands h !! name = Some data →
  (∃ s, execute_command repr run_builtin h ci user = Ret s)
  ∧ (∀ e, call run_builtin h (func data) a r = Raise e →
          execute_command repr run_builtin h ci user
          = Ret (exec_error repr name e)
          ∧ str_contains (exec_error repr name e) name = true
          ∧ str_contains (exec_error repr name e) (describe repr e) = true).
Proof.
  intros Hv Hn Ha Hr Hc Hd.
  rewrite (execute_command_valid h ci user name Hv Hn), Hc, Hd, Ha, Hr.
  cbn [negb index mbind outcome_bind]. split.
  - destruct (call run_builtin h (func data) a r); eauto.
  - intros e ->. split; [done|]. unfold exec_error. split.
    + apply str_contains_middle.
    + rewrite !app_assoc. apply str_contains_suffix.
Qed.

(** C10: on a handler reached from construction by register and
    unregister calls, an invocation with [valid = True] whose command name
    is not registered fails the permission check, and [execute_command]
    returns the fixed permission-denied string without raising; the
    result is the same whatever the [commands] dict holds, so the dict is
    not indexed. *)
Theorem execute_command_stale_invocation (prefix : str)
    (cs : list registry_call) (ci : command_info)
    (user : option (gmap str bool)) (name : str) :
  valid ci = Some true →
  command_name ci = Some name →
  commands (run_calls (init prefix) cs) !! name = None →
  _check_permission (run_calls (init prefix) cs) name user = false
  ∧ execute_command repr run_builtin (run_calls (init prefix) cs) ci user
    = Ret permission_denied_msg
  ∧ ∀ cmds, execute_command repr run_builtin
              (with_commands (run_calls (init prefix) cs) cmds) ci user
            = Ret permission_denied_msg.
Proof.
  intros Hv Hn Hc. set (h := run_calls (init prefix) cs) in *.
  assert (permissions h !! name = None) as Hp.
  { destruct (consistent_run_calls (init prefix) cs (consistent_init prefix))
      as [_ Hdom].
    apply not_elem_of_dom. fold h in Hdom. rewrite <- Hdom.
    by apply not_elem_of_dom. }
  split; [by apply check_permission_unregistered|]. split.
  - rewrite (execute_command_valid h ci user name Hv Hn).
    by rewrite check_permission_unregistered.
  - intros cmds.
    rewrite (execute_command_valid _ ci user name Hv Hn).
    by rewrite check_permission_unregistered.
Qed.

(** ** Batched sending *)

Lemma text_calls_app (t1 t2 : list event) :
  text_calls (t1 ++ t2) = text_calls t1 ++ text_calls t2.
Proof. apply omap_app. Qed.

Lemma posts_app (t1 t2 : list event) :
  posts (t1 ++ t2) = posts t1 ++ posts t2.
Proof. apply omap_app. Qed.

(** What one [send_text] call adds to the trace: the call itself, and one
    request when a channel is available and the content is not blank. *)
Lemma send_text_trace (config : gmap str (gmap str str)) (tr : list event)
    (content : str) (channel_id : option str) :
  text_calls (send_text post config tr content channel_id).2
  = text_calls tr ++ [content]
  ∧ posts (send_text post config tr content channel_id).2
    = posts tr ++ match usable_channel config channel_id with
                  | Some k =>
                      if blank content then [] else [(k, str_strip content)]
                  | None => []
                  end.
Proof.
  unfold send_text, usable_channel.
  destruct (match channel_id with
            | None => get_channel_id config
            | Some c => Some c
            end) as [[|k0 k]|];
    [| destruct (blank content);
       [| destruct (post _ _ _) as [[[| |]|]|]] |];
    cbn [snd]; rewrite ?text_calls_app, ?posts_app; cbn;
    by rewrite ?app_nil_r.
Qed.

Lemma send_multiple_loop_spec (config : gmap str (gmap str str)) (n : nat)
    (messages : list str) (channel_id : option str) :
  ∀ (i : nat) (results : gmap str bool) (tr : list event),
    text_calls (send_multiple_loop post config n i messages channel_id
                  results tr).2
    = text_calls tr ++ sendable messages
    ∧ posts (send_multiple_loop post config n i messages channel_id
               results tr).2
      = posts tr ++ match usable_channel config channel_id with
                    | Some k => map (fun m => (k, str_strip m))
                                    (sendable messages)
                    | None => []
                    end
    ∧ ∀ m, blank m = true →
           m ∈ messages ∨ results !! m = Some false →
           (send_multiple_loop post config n i messages channel_id
              results tr).1 !! m = Some false.
Proof.
  unfold sendable.
  induction messages as [|x rest IH]; intros i results tr;
    cbn [send_multiple_loop].
  - rewrite filter_nil. cbn [fst snd map].
    split; [by rewrite app_nil_r|].
    split; [destruct (usable_channel _ _); by rewrite app_nil_r|].
    intros m _ [Hm|Hm]; [by apply elem_of_nil in Hm|done].
  - destruct (blank x) eqn:Hx.
    + rewrite filter_cons_False by congruence.
      destruct (IH (S i) (<[x := false]> results) tr) as (Ht & Hp & Hr).
      repeat split; [done|done|].
      intros m Hm Hin. apply Hr; [done|].
      destruct (decide (m = x)) as [->|Hne].
      * right. apply lookup_insert_eq.
      * destruct Hin as [[->|Hin]%elem_of_cons|Hin]; [done|by left|].
        right. by rewrite lookup_insert_ne.
    + rewrite filter_cons_True by done.
      destruct (send_text_trace config tr x channel_id) as [Hc Hq].
      destruct (send_text post config tr x channel_id) as [ok tr1].
      cbn [snd] in Hc, Hq. rewrite Hx in Hq.
      set (tr2 := if (i <? n)%nat then tr1 ++ [Sleep] else tr1).
      assert (text_calls tr2 = text_calls tr1 ∧ posts tr2 = posts tr1)
        as [Ht2 Hp2].
      { unfold tr2. destruct (i <? n)%nat; [|done].
        rewrite text_calls_app, posts_app. cbn. by rewrite !app_nil_r. }
      destruct (IH (S i) (<[x := ok]> results) tr2) as (Ht & Hp & Hr).
      rewrite Ht, Hp, Ht2, Hp2, Hc, Hq. repeat split.
      * by rewrite <- app_assoc.
      * destruct (usable_channel _ _); by rewrite <- app_assoc.
      * intros m Hm Hin. apply Hr; [done|].
        assert (m ≠ x) as Hne by congruence.
        destruct Hin as [[->|Hin]%elem_of_cons|Hin]; [done|by left|].
        right. by rewrite lookup_insert_ne.
Qed.

(** C8: [send_multiple] passes to [send_text], in input order, exactly the
    entries that are not empty or whitespace-only; requests are posted
    only for those, one each when a channel id is available; every empty
    or whitespace-only entry is recorded as failed.  For the input
    of an empty string, two spaces and "hello", the only [send_text] call
    is for "hello", both
    empty entries are recorded as failed and, with a channel id available,
    exactly one request is posted. *)
Theorem send_multiple_skips_blank (config : gmap str (gmap str str))
    (tr : list event) (messages : list str) (channel_id : option str) :
  (text_calls (send_multiple post config tr messages channel_id).2
   = text_calls tr ++ sendable messages
   ∧ posts (send_multiple post config tr messages channel_id).2
     = posts tr ++ match usable_channel config channel_id with
                   | Some k => map (fun m => (k, str_strip m))
                                   (sendable messages)
                   | None => []
                   end
   ∧ ∀ m, m ∈ messages → blank m = true →
          (send_multiple post config tr messages channel_id).1 !! m
          = Some false)
  ∧ (messages = [[]; lit "  "; lit "hello"] →
     text_calls (send_multiple post config tr messages channel_id).2
     = text_calls tr ++ [lit "hello"]
     ∧ (send_multiple post config tr messages channel_id).1 !! []
       = Some false
     ∧ (send_multiple post config tr messages channel_id).1 !! lit "  "
       = Some false
     ∧ ∀ k, usable_channel config channel_id = Some k →
            posts (send_multiple post config tr messages channel_id).2
            = posts tr ++ [(k, lit "hello")]).
Proof.
  unfold send_multiple.
  destruct (send_multiple_loop_spec config (List.length messages) messages
              channel_id 1 ∅ tr) as (Ht & Hp & Hr).
  split; [repeat split; [done|done|]|].
  - intros m Hin Hm. apply Hr; [done|by left].
  - intros ->. rewrite Ht. repeat split.
    + apply Hr; [done|left; repeat constructor].
    + apply Hr; [done|left; repeat constructor].
    + intros k Hk. by rewrite Hp, Hk.
Qed.

End Properties.

(** * The model on concrete inputs *)

(** C1 on [kick] (level 1) with a caller that is super-admin only: the
    check fails and the permission-denied string is returned. *)
Lemma check_permission_gating_witness :
  permissions sample_handler !! lit "kick" = Some 1%Z
  ∧ _check_permission sample_handler (lit "kick") (Some super_admin_only)
    = false
  ∧ execute_command plain_repr sample_builtin sample_handler
      (invocation (lit "kick")) (Some super_admin_only)
    = Ret permission_denied_msg.
Proof.
  assert (permissions sample_handler !! lit "kick" = Some 1%Z) as Hp
    by (vm_compute; reflexivity).
  destruct (check_permission_gating plain_repr sample_builtin sample_handler
              (invocation (lit "kick")) (lit "kick") 1
              (Some super_admin_only) Hp eq_refl eq_refl)
    as (_ & _ & _ & Hs & _ & Hx).
  assert (_check_permission sample_handler (lit "kick")
            (Some super_admin_only) = false) as Hc.
  { apply (Hs eq_refl super_admin_only eq_refl);
      [vm_compute; reflexivity|vm_compute; discriminate]. }
  exact (conj Hp (conj Hc (Hx Hc))).
Defined.

(** C2 on [crash], whose handler raises "boom". *)
Lemma execute_command_contains_handler_failure_witness :
  commands sample_handler !! lit "crash"
  = Some {| func := failing; description := []; usage := [];
            permission_level := 0 |}
  ∧ execute_command plain_repr sample_builtin sample_handler
      (invocation (lit "crash")) None
    = Ret (exec_error plain_repr (lit "crash") (Exception (lit "boom"))).
Proof.
  assert (commands sample_handler !! lit "crash"
          = Some {| func := failing; description := []; usage := [];
                    permission_level := 0 |}) as Hd
    by (vm_compute; reflexivity).
  split; [exact Hd|].
  refine (proj1 (proj2 (execute_command_contains_handler_failure plain_repr
                          sample_builtin sample_handler
                          (invocation (lit "crash")) None (lit "crash") _
                          [] [] eq_refl eq_refl eq_refl eq_refl _ Hd)
                   (Exception (lit "boom")) eq_refl)).
  vm_compute; reflexivity.
Defined.

(** C4, counterexample: with prefix [!], the message " !help" trimmed
    starts with the prefix and leaves "help" after it, yet the message is
    not a command. *)
Lemma parse_command_leading_space_is_not_command :
  str_startswith (str_strip (lit " !help")) (command_prefix fresh_handler)
  = true
  ∧ drop (List.length (command_prefix fresh_handler)) (str_strip (lit " !help"))
    = lit "help"
  ∧ parse_command ascii_lower fresh_handler (lit " !help") = Ret not_a_command
  ∧ is_command not_a_command = Some false.
Proof. vm_compute. done. Qed.

(** C5, counterexample: the token typed in "!Unknown" is "Unknown"; the
    error string ends in "unknown" and does not contain "Unknown". *)
Lemma parse_command_error_has_lowered_token :
  str_split (str_strip (drop (List.length (command_prefix fresh_handler))
                          (lit "!Unknown")))
  = [lit "Unknown"]
  ∧ parse_command ascii_lower fresh_handler (lit "!Unknown")
    = Ret {| is_command := Some true; valid := Some false;
             command_name := Some (lit "unknown"); original_name := None;
             args := None; raw_args := None;
             error := Some (unknown_command_msg ++ lit "unknown") |}
  ∧ str_contains (unknown_command_msg ++ lit "unknown") (lit "Unknown")
    = false.
Proof. vm_compute. done. Qed.

(** C5 on "!unknown" with the built-in commands only. *)
Lemma parse_command_unknown_names_lowered_token_witness :
  ∃ ci e, parse_command ascii_lower fresh_handler (lit "!unknown") = Ret ci
    ∧ valid ci = Some false
    ∧ error ci = Some e
    ∧ str_contains e (lit "unknown") = true.
Proof.
  apply (proj2 (parse_command_unknown_names_lowered_token ascii_lower
                  fresh_handler)); vm_compute; reflexivity.
Defined.

(** C7 on [help] right after construction: its alias [h] is removed. *)
Lemma unregister_command_spec_witness :
  is_Some (commands fresh_handler !! lit "help")
  ∧ aliases fresh_handler !! lit "h" = Some (lit "help")
  ∧ ∃ h', unregister_command fresh_handler (lit "help") = (true, h')
      ∧ aliases h' !! lit "h" = None.
Proof.
  assert (is_Some (commands fresh_handler !! lit "help")) as Hc
    by (vm_compute; eauto).
  assert (aliases fresh_handler !! lit "h" = Some (lit "help")) as Ha
    by (vm_compute; reflexivity).
  destruct (proj2 (unregister_command_spec (lit "!") [] (lit "help")) Hc)
    as (h' & Hu & _ & _ & Hgone & _).
  exact (conj Hc (conj Ha (ex_intro _ h' (conj Hu (Hgone _ Ha))))).
Defined.

(** C8 on the batch of the empty string, two spaces and "hello", with a
    configured channel and a remote end that accepts every request. *)
Lemma send_multiple_skips_blank_witness :
  usable_channel sample_config None = Some (lit "c1")
  ∧ text_calls (send_multiple accepting_post sample_config []
                  [[]; lit "  "; lit "hello"] None).2
    = [lit "hello"]
  ∧ posts (send_multiple accepting_post sample_config []
             [[]; lit "  "; lit "hello"] None).2
    = [(lit "c1", lit "hello")].
Proof.
  assert (usable_channel sample_config None = Some (lit "c1")) as Hk
    by (vm_compute; reflexivity).
  destruct (proj2 (send_multiple_skips_blank accepting_post sample_config []
                     [[]; lit "  "; lit "hello"] None) eq_refl)
    as (Ht & _ & _ & Hp).
  exact (conj Hk (conj Ht (Hp _ Hk))).
Defined.

(** C10 on [test] after it has been unregistered. *)
Lemma execute_command_stale_invocation_witness :
  commands (run_calls (init (lit "!")) [Unregister (lit "test")]) !! lit "test"
  = None
  ∧ execute_command plain_repr sample_builtin
      (run_calls (init (lit "!")) [Unregister (lit "test")])
      (invocation (lit "test")) None
    = Ret permission_denied_msg.
Proof.
  assert (commands (run_calls (init (lit "!")) [Unregister (lit "test")])
          !! lit "test" = None) as Hc by (vm_compute; reflexivity).
  split; [exact Hc|].
  exact (proj1 (proj2 (execute_command_stale_invocation plain_repr
                         sample_builtin (lit "!") [Unregister (lit "test")]
                         (invocation (lit "test")) None (lit "test")
                         eq_refl eq_refl Hc))).
Defined.

(** * Further properties *)

(** ** Tokens, splitting and stripping *)

Lemma str_words_app_token (t w s : str) :
  Forall (fun c => isspace c = false) t →
  str_words w (t ++ s) = str_words (w ++ t) s.
Proof.
  intros Ht. revert w. induction Ht as [|c t Hc Ht IH]; intros w.
  - by rewrite app_nil_r.
  - cbn [app str_words]. rewrite Hc, IH. by rewrite <- app_assoc.
Qed.

Lemma str_words_tokens (s : str) :
  ∀ w, Forall (fun c => isspace c = false) w → Forall is_token (str_words w s).
Proof.
  induction s as [|c s IH]; intros w Hw; cbn [str_words].
  - destruct w as [|d w]; constructor; [by split|constructor].
  - destruct (isspace c) eqn:Hc.
    + destruct w as [|d w]; [by apply IH|].
      constructor; [by split|by apply IH].
    + apply IH, Forall_app. split; [done|by repeat constructor].
Qed.

Lemma str_split_tokens (s : str) : Forall is_token (str_split s).
Proof. apply str_words_tokens. constructor. Qed.

Lemma str_split_token (t : str) : is_token t → str_split t = [t].
Proof.
  intros [Hne Ht]. unfold str_split.
  rewrite <- (app_nil_r t) at 1. rewrite str_words_app_token by done.
  by destruct t.
Qed.

(** Splitting what [' '.join] built from tokens gives the tokens back. *)
Lemma str_split_join (l : list str) :
  Forall is_token l → str_split (str_join (lit " ") l) = l.
Proof.
  induction l as [|x l IH]; [done|]. intros [Hx Hl]%Forall_cons.
  destruct l as [|y l]; [by apply str_split_token|].
  change (str_join (lit " ") (x :: y :: l))
    with (x ++ 32%N :: str_join (lit " ") (y :: l)).
  unfold str_split. rewrite str_words_app_token by apply Hx.
  destruct x as [|c x]; [by destruct Hx|].
  change (str_words ([] ++ c :: x) (32%N :: str_join (lit " ") (y :: l)))
    with ((c :: x) :: str_split (str_join (lit " ") (y :: l))).
  by rewrite IH.
Qed.

Lemma str_lstrip_keeps (s : str) (c : char) :
  c ∈ s → isspace c = false → c ∈ str_lstrip s.
Proof.
  intros Hin Hc. induction s as [|d s IH]; [done|]. cbn [str_lstrip].
  destruct (isspace d) eqn:Hd; [|done].
  apply elem_of_cons in Hin as [->|Hin]; [congruence|by apply IH].
Qed.

(** Stripping never removes a code point that is not whitespace. *)
Lemma str_strip_keeps (s : str) (c : char) :
  c ∈ s → isspace c = false → c ∈ str_strip s.
Proof.
  intros Hin Hc. unfold str_strip, str_rstrip.
  apply list_elem_of_In. apply -> in_rev. apply list_elem_of_In.
  apply str_lstrip_keeps; [|done].
  apply list_elem_of_In. apply -> in_rev. apply list_elem_of_In.
  by apply str_lstrip_keeps.
Qed.

Lemma str_lstrip_snoc (l : str) (c : char) :
  isspace c = false → str_lstrip (l ++ [c]) = str_lstrip l ++ [c].
Proof.
  intros Hc. induction l as [|d l IH]; cbn [app str_lstrip].
  - by rewrite Hc.
  - by destruct (isspace d).
Qed.

(** A stripped string neither starts nor ends with whitespace. *)
Lemma str_strip_head (s : str) (c : char) (t : str) :
  str_strip s = c :: t → isspace c = false.
Proof.
  unfold str_strip, str_rstrip.
  destruct (str_lstrip s) as [|d u] eqn:Hu; [done|].
  pose proof (str_lstrip_head s d u Hu) as Hd.
  cbn [rev]. rewrite str_lstrip_snoc by done.
  rewrite rev_app_distr. cbn. by intros [= <- _].
Qed.

Lemma str_strip_last (s : str) (c : char) :
  last (str_strip s) = Some c → isspace c = false.
Proof.
  unfold str_strip, str_rstrip.
  destruct (str_lstrip (rev (str_lstrip s))) as [|d u] eqn:Hu; [done|].
  cbn [rev]. rewrite last_snoc. intros [= <-].
  by eapply str_lstrip_head.
Qed.

Lemma blank_false_strip (m : str) : blank m = false → str_strip m ≠ [].
Proof.
  unfold blank. destruct m as [|c m]; [done|].
  by destruct (str_strip (c :: m)).
Qed.

Lemma blank_false_intro (m : str) (c : char) :
  c ∈ m → isspace c = false → blank m = false.
Proof.
  intros Hin Hc. unfold blank. destruct m as [|d m]; [by apply elem_of_nil in Hin|].
  pose proof (str_strip_keeps (d :: m) c Hin Hc) as Hk.
  destruct (str_strip (d :: m)); [by apply elem_of_nil in Hk|done].
Qed.

Section Further.

Variable str_lower : str -> str.
Variable repr : str -> str.
Variable run_builtin :
  builtin -> CommandHandler -> list str -> str -> outcome str.
Variable post : list event -> str -> str -> response.

(** ** process_message *)

Lemma process_message_not_command (h : CommandHandler) (m : str)
    (user : option (gmap str bool)) :
  str_startswith m (command_prefix h) = false
  ∨ str_strip (drop (List.length (command_prefix h)) m) = [] →
  process_message str_lower repr run_builtin h m user = Ret [].
Proof.
  intros H. unfold process_message.
  by rewrite (parse_command_not_command str_lower h m H).
Qed.

Lemma process_message_tokens (h : CommandHandler) (m : str)
    (user : option (gmap str bool)) (tok : str) (rest : list str) :
  str_startswith m (command_prefix h) = true →
  str_split (str_strip (drop (List.length (command_prefix h)) m))
  = tok :: rest →
  process_message str_lower repr run_builtin h m user
  = match commands h !! default (str_lower tok) (aliases h !! str_lower tok)
    with
    | None => Ret (unknown_command_msg ++ str_lower tok)
    | Some data =>
        if _check_permission h
             (default (str_lower tok) (aliases h !! str_lower tok)) user
        then match call run_builtin h (func data) rest
                     (str_join (lit " ") rest) with
             | Ret result => Ret result
             | Raise e =>
                 Ret (exec_error repr
                        (default (str_lower tok) (aliases h !! str_lower tok))
                        e)
             end
        else Ret permission_denied_msg
    end.
Proof.
  intros Hp Hs. unfold process_message.
  rewrite (parse_command_tokens str_lower h m tok rest Hp Hs).
  destruct (commands h !! _) as [data|] eqn:Hc; [|done].
  cbn [mbind outcome_bind index is_command valid negb].
  erewrite execute_command_valid; [|reflexivity|reflexivity].
  cbn [command_name]. rewrite Hc. cbn [args raw_args index mbind outcome_bind].
  by destruct (_check_permission h _ user).
Qed.

(** X2: a message that starts with the prefix and has a first token is
    answered as follows.  If the token, lower-cased and passed through the
    alias map, names no command, the answer is the unknown-command text
    with the lower-cased token.  Otherwise the permission check decides:
    on failure the answer is the permission-denied string; on success the
    handler is called with the remaining tokens and the tokens joined by
    single spaces, and the answer is its result, or the error text when it
    raises. *)
Theorem process_message_dispatch (h : CommandHandler) (m : str)
    (user : option (gmap str bool)) (tok : str) (rest : list str) :
  str_startswith m (command_prefix h) = true →
  str_split (str_strip (drop (List.length (command_prefix h)) m))
  = tok :: rest →
  process_message str_lower repr run_builtin h m user
  = match commands h !! default (str_lower tok) (aliases h !! str_lower tok)
    with
    | None => Ret (unknown_command_msg ++ str_lower tok)
    | Some data =>
        if _check_permission h
             (default (str_lower tok) (aliases h !! str_lower tok)) user
        then match call run_builtin h (func data) rest
                     (str_join (lit " ") rest) with
             | Ret result => Ret result
             | Raise e =>
                 Ret (exec_error repr
                        (default (str_lower tok) (aliases h !! str_lower tok))
                        e)
             end
        else Ret permission_denied_msg
    end.
Proof. apply process_message_tokens. Qed.

(** X1: [process_message] returns a string for every handler state,
    message and caller: no [KeyError] or [IndexError] of the parsing and
    execution steps and no handler failure reaches its caller.  For a
    message that does not start with the prefix, or has only whitespace
    after it, the string is empty. *)
Theorem process_message_returns (h : CommandHandler) (m : str)
    (user : option (gmap str bool)) :
  (∃ s, process_message str_lower repr run_builtin h m user = Ret s)
  ∧ (str_startswith m (command_prefix h) = false
     ∨ str_strip (drop (List.length (command_prefix h)) m) = [] →
     process_message str_lower repr run_builtin h m user = Ret []).
Proof.
  split; [|apply process_message_not_command].
  destruct (parse_command_cases h m) as [(Hp & tok & rest & Hs)|H].
  - rewrite (process_message_tokens h m user tok rest Hp Hs).
    destruct (commands h !! _); [|eauto].
    destruct (_check_permission h _ user); [|eauto].
    destruct (call _ _ _ _ _); eauto.
  - rewrite process_message_not_command by done. eauto.
Qed.

(** ** Parsed arguments *)

(** X3: in a valid result of [parse_command], every argument is non-empty
    and free of whitespace, ['raw_args'] is the arguments joined by single
    spaces, and splitting ['raw_args'] gives the arguments back. *)
Theorem parse_command_args_roundtrip (h : CommandHandler) (m : str)
    (ci : command_info) (a : list str) (r : str) :
  parse_command str_lower h m = Ret ci →
  args ci = Some a →
  raw_args ci = Some r →
  Forall is_token a ∧ r = str_join (lit " ") a ∧ str_split r = a.
Proof.
  intros Hparse Ha Hr.
  destruct (parse_command_cases h m) as [(Hp & tok & rest & Hs)|H].
  - rewrite (parse_command_tokens str_lower h m tok rest Hp Hs) in Hparse.
    assert (Forall is_token rest) as Hrest.
    { pose proof (str_split_tokens
                    (str_strip (drop (List.length (command_prefix h)) m)))
        as Ht.
      rewrite Hs in Ht. by apply Forall_cons in Ht as [_ ?]. }
    destruct (commands h !! _); injection Hparse as <-; cbn in Ha, Hr;
      [|done].
    injection Ha as <-. injection Hr as <-.
    split; [done|]. split; [done|]. by apply str_split_join.
  - rewrite (parse_command_not_command str_lower h m H) in Hparse.
    injection Hparse as <-. done.
Qed.

(** X4: the result of [parse_command] depends on the message only through
    the lower-cased first token and the remaining tokens: two prefixed
    messages whose first tokens agree after lower-casing and whose
    remaining tokens are equal give the same result, whatever the case of
    the command word and the spacing. *)
Theorem parse_command_token_insensitive (h : CommandHandler) (m1 m2 : str)
    (tok1 tok2 : str) (rest : list str) :
  str_startswith m1 (command_prefix h) = true →
  str_startswith m2 (command_prefix h) = true →
  str_split (str_strip (drop (List.length (command_prefix h)) m1))
  = tok1 :: rest →
  str_split (str_strip (drop (List.length (command_prefix h)) m2))
  = tok2 :: rest →
  str_lower tok1 = str_lower tok2 →
  parse_command str_lower h m1 = parse_command str_lower h m2.
Proof.
  intros Hp1 Hp2 Hs1 Hs2 Hl.
  rewrite (parse_command_tokens str_lower h m1 tok1 rest Hp1 Hs1).
  rewrite (parse_command_tokens str_lower h m2 tok2 rest Hp2 Hs2).
  by rewrite Hl.
Qed.

(** ** Registration and parsing *)

(** X5: after [register_command name ... aliases], a prefixed message
    whose lower-cased first token is one of the listed aliases parses as a
    valid invocation of [name], also when that alias is itself the name of
    a registered command (the alias map is consulted first); a message
    whose lower-cased first token is [name] parses as a valid invocation
    of [name] provided [name] is not a key of the alias map. *)
Theorem parse_command_after_register (h : CommandHandler) (name : str)
    (f : callable) (descr usg : str) (als : option (list str)) (level : Z)
    (m tok : str) (rest : list str) :
  str_startswith m (command_prefix h) = true →
  str_split (str_strip (drop (List.length (command_prefix h)) m))
  = tok :: rest →
  str_lower tok ∈ default [] als
  ∨ (str_lower tok = name ∧ (name ∉ default [] als)
     ∧ aliases h !! name = None) →
  parse_command str_lower (register_command h name f descr usg als level).2 m
  = Ret {| is_command := Some true; valid := Some true;
           command_name := Some name; original_name := Some (str_lower tok);
           args := Some rest; raw_args := Some (str_join (lit " ") rest);
           error := None |}.
Proof.
  intros Hp Hs Hcase.
  destruct (register_command_fields h name f descr usg als level)
    as (Hc & _ & _ & Ha).
  rewrite (parse_command_tokens str_lower
             (register_command h name f descr usg als level).2 m tok rest
             Hp Hs).
  assert (default (str_lower tok)
            (aliases (register_command h name f descr usg als level).2
             !! str_lower tok) = name) as ->.
  { rewrite Ha. destruct Hcase as [Hin|(Hl & Hn & Hnone)].
    - by rewrite decide_True.
    - rewrite Hl, decide_False, Hnone by done. done. }
  by rewrite Hc, lookup_insert_eq.
Qed.

(** X6: on a handler reached from construction by register and unregister
    calls, after [unregister_command name] succeeded, a prefixed message
    whose lower-cased first token used to resolve to [name] is reported as
    an unknown command, unless that token is the name of another
    registered command. *)
Theorem parse_command_after_unregister (prefix : str)
    (cs : list registry_call) (name m tok : str) (rest : list str) :
  is_Some (commands (run_calls (init prefix) cs) !! name) →
  str_startswith m (command_prefix (run_calls (init prefix) cs)) = true →
  str_split (str_strip (drop (List.length
                                (command_prefix (run_calls (init prefix) cs)))
                             m))
  = tok :: rest →
  default (str_lower tok)
          (aliases (run_calls (init prefix) cs) !! str_lower tok) = name →
  str_lower tok = name
  ∨ commands (run_calls (init prefix) cs) !! str_lower tok = None →
  (unregister_command (run_calls (init prefix) cs) name).1 = true
  ∧ parse_command str_lower
      (unregister_command (run_calls (init prefix) cs) name).2 m
    = Ret {| is_command := Some true; valid := Some false;
             command_name := Some (str_lower tok); original_name := None;
             args := None; raw_args := None;
             error := Some (unknown_command_msg ++ str_lower tok) |}.
Proof.
  set (h := run_calls (init prefix) cs). intros Hreg Hp Hs Hres Hother.
  assert (consistent h) as Hh by apply consistent_run_calls, consistent_init.
  rewrite (unregister_command_present h name Hh Hreg). split; [done|].
  erewrite parse_command_tokens; [|exact Hp|exact Hs].
  cbn [snd aliases commands].
  assert (foldl (fun m alias => delete alias m) (aliases h)
                (aliases_to_remove name (aliases h)) !! str_lower tok = None)
    as ->.
  { rewrite lookup_aliases_removed. case_decide as Hn; [done|].
    destruct (aliases h !! str_lower tok) eqn:E; [|done].
    cbn in Hres. congruence. }
  cbn [default from_option].
  assert (delete name (commands h) !! str_lower tok = None) as ->; [|done].
  destruct Hother as [->|Hnone]; [apply lookup_delete_eq|].
  apply lookup_delete_None. by right.
Qed.

(** ** Prefix *)

(** X7: [set_command_prefix] succeeds exactly for prefixes of one to three
    code points.  A refused call leaves the handler as it was; an accepted
    one replaces the prefix and keeps the three registry maps. *)
Theorem set_command_prefix_spec (h : CommandHandler) (p : str) :
  ((set_command_prefix h p).1 = true
   ↔ (1 ≤ List.length p ∧ List.length p ≤ 3)%nat)
  ∧ ((set_command_prefix h p).1 = false → (set_command_prefix h p).2 = h)
  ∧ ((set_command_prefix h p).1 = true →
     command_prefix (set_command_prefix h p).2 = p
     ∧ commands (set_command_prefix h p).2 = commands h
     ∧ aliases (set_command_prefix h p).2 = aliases h
     ∧ permissions (set_command_prefix h p).2 = permissions h).
Proof.
  unfold set_command_prefix. destruct p as [|c p].
  - cbn. repeat split; try done. lia.
  - destruct (3 <? List.length (c :: p))%nat eqn:E; cbn [fst snd].
    + apply Nat.ltb_lt in E. repeat split; try done. lia.
    + apply Nat.ltb_ge in E. repeat split; try done. cbn. lia.
Qed.

Lemma set_command_prefix_accepted (h : CommandHandler) (p : str) :
  (set_command_prefix h p).1 = true →
  command_prefix (set_command_prefix h p).2 = p
  ∧ commands (set_command_prefix h p).2 = commands h
  ∧ aliases (set_command_prefix h p).2 = aliases h
  ∧ permissions (set_command_prefix h p).2 = permissions h.
Proof.
  unfold set_command_prefix. destruct p as [|c p]; [done|].
  by destruct (3 <? List.length (c :: p))%nat.
Qed.

(** X8: after an accepted [set_command_prefix p], the new prefix followed
    by any text parses exactly as the old prefix followed by that text did
    before the change. *)
Theorem parse_command_after_set_prefix (h : CommandHandler) (p s : str) :
  (set_command_prefix h p).1 = true →
  parse_command str_lower (set_command_prefix h p).2 (p ++ s)
  = parse_command str_lower h (command_prefix h ++ s).
Proof.
  intros Hok.
  destruct (set_command_prefix_accepted h p Hok) as (Hpre & Hc & Ha & _).
  unfold parse_command. rewrite Hpre, Hc, Ha.
  by rewrite !str_startswith_app, !drop_app_length.
Qed.

(** ** Permission levels *)

Lemma levels_agree_register (h : CommandHandler) (name : str) (f : callable)
    (descr usg : str) (als : option (list str)) (level : Z) :
  levels_agree h →
  levels_agree (register_command h name f descr usg als level).2.
Proof.
  intros Hh n d. cbn [snd register_command commands permissions].
  destruct (decide (n = name)) as [->|Hne].
  - rewrite !lookup_insert_eq. by intros [= <-].
  - rewrite !lookup_insert_ne by done. apply Hh.
Qed.

Lemma levels_agree_unregister (h : CommandHandler) (name : str) :
  levels_agree h → levels_agree (unregister_command h name).2.
Proof.
  intros Hh n d. unfold unregister_command.
  destruct (commands h !! name) eqn:Hc; [|apply Hh].
  destruct (permissions h !! name) eqn:Hp; cbn [snd commands permissions].
  - destruct (decide (n = name)) as [->|Hne].
    + by rewrite lookup_delete_eq.
    + rewrite !lookup_delete_ne by done. apply Hh.
  - intros [_ Hn]%lookup_delete_Some. by apply Hh.
Qed.

Lemma levels_agree_run_calls (prefix : str) (cs : list registry_call) :
  levels_agree (run_calls (init prefix) cs).
Proof.
  assert (levels_agree (init prefix)) as Hinit.
  { unfold init, _register_builtin_commands.
    do 3 apply levels_agree_register. intros n d. cbn.
    by rewrite lookup_empty. }
  unfold run_calls. revert Hinit. generalize (init prefix) as h.
  induction cs as [|c cs IH]; intros h Hh; cbn [foldl]; [done|].
  apply IH. destruct c; cbn [do_call];
    [by apply levels_agree_register|by apply levels_agree_unregister].
Qed.

(** X9: after construction and any sequence of [register_command] and
    [unregister_command] calls, the level stored in a command's definition
    (the one shown by help and command information) is the level that
    [_check_permission] enforces for it. *)
Theorem shown_level_is_enforced_level (prefix : str)
    (cs : list registry_call) (n : str) (d : command_data) :
  commands (run_calls (init prefix) cs) !! n = Some d →
  permissions (run_calls (init prefix) cs) !! n = Some (permission_level d).
Proof. apply levels_agree_run_calls. Qed.

(** X10: a command can be run by some caller exactly when its level is 0,
    1 or 2.  With any other level (which [register_command] accepts) the
    check fails for every caller, and [execute_command] answers every
    valid invocation of the command with the permission-denied string. *)
Theorem level_outside_range_is_unusable (h : CommandHandler) (name : str)
    (tier : Z) (ci : command_info) :
  permissions h !! name = Some tier →
  valid ci = Some true →
  command_name ci = Some name →
  ((∃ user, _check_permission h name user = true)
   ↔ tier = 0%Z ∨ tier = 1%Z ∨ tier = 2%Z)
  ∧ (tier ≠ 0%Z → tier ≠ 1%Z → tier ≠ 2%Z →
     ∀ user, execute_command repr run_builtin h ci user
             = Ret permission_denied_msg).
Proof.
  intros Hp Hv Hn.
  assert (tier ≠ 0%Z → tier ≠ 1%Z → tier ≠ 2%Z →
          ∀ user, _check_permission h name user = false) as Hdenied.
  { intros H0 H1 H2 user. rewrite (check_permission_level h name tier user Hp).
    apply Z.eqb_neq in H0, H1, H2. rewrite H0, H1, H2.
    by destruct user. }
  split; [split|].
  - intros [user Hc].
    destruct (decide (tier = 0%Z)); [by left|].
    destruct (decide (tier = 1%Z)); [by right; left|].
    destruct (decide (tier = 2%Z)); [by right; right|].
    rewrite Hdenied in Hc; done.
  - intros Ht.
    exists (Some (<[lit "is_admin" := true]>
                    (<[lit "is_super_admin" := true]> ∅))).
    rewrite (check_permission_level h name tier _ Hp).
    rewrite lookup_insert_eq, lookup_insert_ne, lookup_insert_eq by done.
    by destruct Ht as [->| [->| ->]].
  - intros H0 H1 H2 user.
    rewrite (execute_command_valid repr run_builtin h ci user name Hv Hn).
    by rewrite Hdenied.
Qed.

(** ** Command information *)

Lemma elem_of_aliases_of (name : str) (m : gmap str str) (a : str) :
  a ∈ aliases_of name m ↔ m !! a = Some name.
Proof. apply elem_of_aliases_to_remove. Qed.

(** X11: on a handler reached from construction by register and
    unregister calls, [get_command_info] of an alias returns the
    information of the command the alias points to: its name, the level
    that the permission check enforces for it, and as alias list exactly
    the keys of the alias map that point to it, the queried alias among
    them. *)
Theorem get_command_info_of_alias (prefix : str) (cs : list registry_call)
    (a c : str) :
  aliases (run_calls (init prefix) cs) !! a = Some c →
  ∃ info, get_command_info (run_calls (init prefix) cs) a = Some info
    ∧ info_name info = c
    ∧ permissions (run_calls (init prefix) cs) !! c
      = Some (info_permission_level info)
    ∧ a ∈ info_aliases info
    ∧ ∀ x, x ∈ info_aliases info
           ↔ aliases (run_calls (init prefix) cs) !! x = Some c.
Proof.
  set (h := run_calls (init prefix) cs). intros Ha.
  destruct (consistent_run_calls (init prefix) cs (consistent_init prefix))
    as [Hal _]. fold h in Hal.
  destruct (Hal a c Ha) as [d Hd].
  exists (summary h c d). unfold get_command_info. rewrite Ha.
  cbn [default from_option id]. rewrite Hd. split; [done|]. split; [done|]. split.
  - by apply levels_agree_run_calls.
  - split; [by apply elem_of_aliases_of|]. intros x. apply elem_of_aliases_of.
Qed.

(** X12: [get_command_list] has one entry per registered command: the
    names in the list are pairwise distinct, a name occurs exactly when it
    is a key of [commands], and every entry carries the stored
    description, usage and level together with exactly the aliases that
    point to its name. *)
Theorem get_command_list_entries (h : CommandHandler) :
  NoDup (info_name <$> get_command_list h)
  ∧ List.length (get_command_list h) = size (commands h)
  ∧ (∀ n, n ∈ (info_name <$> get_command_list h) ↔ is_Some (commands h !! n))
  ∧ ∀ e, e ∈ get_command_list h →
         ∃ d, commands h !! info_name e = Some d
              ∧ e = summary h (info_name e) d
              ∧ ∀ x, x ∈ info_aliases e ↔ aliases h !! x = Some (info_name e).
Proof.
  unfold get_command_list.
  assert (info_name <$> ((fun kv : str * command_data => summary h kv.1 kv.2)
                           <$> map_to_list (commands h))
          = (map_to_list (commands h)).*1) as Hnames.
  { rewrite <- list_fmap_compose. by apply list_fmap_ext. }
  rewrite Hnames. split; [apply NoDup_fst_map_to_list|].
  split; [by rewrite length_fmap, length_map_to_list|]. split.
  - intros n. rewrite list_elem_of_fmap. split.
    + intros ([n' d] & -> & Hin). apply elem_of_map_to_list in Hin. eauto.
    + intros [d Hd]. exists (n, d). split; [done|].
      by apply elem_of_map_to_list.
  - intros e Hin. apply list_elem_of_fmap in Hin as ([n d] & -> & Hin).
    apply elem_of_map_to_list in Hin. exists d. cbn.
    split; [done|]. split; [done|]. intros x. apply elem_of_aliases_of.
Qed.

(** ** Sending *)

Lemma usable_channel_nonempty (cfg : gmap str (gmap str str))
    (channel_id : option str) (k : str) :
  usable_channel cfg channel_id = Some k → k ≠ [].
Proof.
  unfold usable_channel.
  destruct (match channel_id with
            | None => get_channel_id cfg
            | Some c => Some c
            end) as [[|c0 c]|]; [done| |done].
  by intros [= <-].
Qed.

Lemma send_text_result (cfg : gmap str (gmap str str)) (tr : list event)
    (content : str) (channel_id : option str) :
  (send_text post cfg tr content channel_id).1
  = match usable_channel cfg channel_id with
    | Some k =>
        negb (blank content)
        && match post (tr ++ [SendText content channel_id]) k
                   (str_strip content) with
           | Response (Some 0%Z) => true
           | _ => false
           end
    | None => false
    end.
Proof.
  unfold send_text, usable_channel.
  destruct (match channel_id with
            | None => get_channel_id cfg
            | Some c => Some c
            end) as [[|c0 c]|]; [done| |done].
  destruct (blank content); [done|].
  by destruct (post _ _ _) as [[[| |]|]|].
Qed.

Lemma send_text_refused (cfg : gmap str (gmap str str)) (tr : list event)
    (content : str) (channel_id : option str) :
  usable_channel cfg channel_id = None ∨ blank content = true →
  send_text post cfg tr content channel_id
  = (false, tr ++ [SendText content channel_id]).
Proof.
  unfold send_text, usable_channel.
  destruct (match channel_id with
            | None => get_channel_id cfg
            | Some c => Some c
            end) as [[|c0 c]|]; [done| |done].
  intros [H|H]; [done|]. by rewrite H.
Qed.

(** X13: [send_text] returns [True] exactly when a channel id is available
    (argument or configuration, non-empty), the content is not blank, and
    the remote end answers the request with code 0.  Without a channel id
    or with blank content it returns [False] and posts nothing; in every
    case it posts at most one request. *)
Theorem send_text_succeeds_iff (cfg : gmap str (gmap str str))
    (tr : list event) (content : str) (channel_id : option str) :
  ((send_text post cfg tr content channel_id).1 = true
   ↔ ∃ k, usable_channel cfg channel_id = Some k
          ∧ blank content = false
          ∧ post (tr ++ [SendText content channel_id]) k (str_strip content)
            = Response (Some 0%Z))
  ∧ (usable_channel cfg channel_id = None ∨ blank content = true →
     (send_text post cfg tr content channel_id).1 = false
     ∧ posts (send_text post cfg tr content channel_id).2 = posts tr)
  ∧ (List.length (posts (send_text post cfg tr content channel_id).2)
     ≤ List.length (posts tr) + 1)%nat.
Proof.
  split; [|split].
  - rewrite send_text_result.
    destruct (usable_channel cfg channel_id) as [k|];
      [|by split; [|intros (? & ? & _)]].
    destruct (blank content); cbn [negb andb];
      [by split; [|intros (? & _ & ? & _)]|].
    split.
    + intros H. exists k. do 2 (split; [done|]).
      by destruct (post _ _ _) as [[[| |]|]|].
    + intros (k' & [= <-] & _ & ->). done.
  - intros H. rewrite (send_text_refused cfg tr content channel_id H).
    split; [done|]. cbn [snd]. rewrite posts_app. cbn. by rewrite app_nil_r.
  - destruct (send_text_trace post cfg tr content channel_id) as [_ ->].
    rewrite length_app.
    destruct (usable_channel cfg channel_id); [destruct (blank content)|];
      cbn; lia.
Qed.

(** X14: every request that [send_multiple] posts goes to the available,
    non-empty channel id and carries the stripped text of a non-blank
    entry of the batch: the posted content is non-empty and neither starts
    nor ends with whitespace. *)
Theorem send_multiple_posts_are_trimmed (cfg : gmap str (gmap str str))
    (tr : list event) (messages : list str) (channel_id : option str)
    (p : str * str) :
  p ∈ posts (send_multiple post cfg tr messages channel_id).2 →
  p ∈ posts tr
  ∨ (usable_channel cfg channel_id = Some p.1
     ∧ p.1 ≠ []
     ∧ (∃ m, m ∈ messages ∧ blank m = false ∧ p.2 = str_strip m)
     ∧ p.2 ≠ []
     ∧ (∀ c, head p.2 = Some c → isspace c = false)
     ∧ (∀ c, last p.2 = Some c → isspace c = false)).
Proof.
  unfold send_multiple.
  destruct (send_multiple_loop_spec post cfg (List.length messages) messages
              channel_id 1 ∅ tr) as (_ & -> & _).
  intros [Hin|Hin]%elem_of_app; [by left|]. right.
  destruct (usable_channel cfg channel_id) as [k|] eqn:Hk;
    [|by apply elem_of_nil in Hin].
  apply list_elem_of_fmap in Hin as (m & -> & Hm).
  apply list_elem_of_filter in Hm as [Hb Hm]. cbn [fst snd].
  split; [done|]. split; [by eapply usable_channel_nonempty|].
  split; [by exists m|]. split; [by apply blank_false_strip|]. split.
  - intros c Hc. destruct (str_strip m) as [|d t] eqn:E; [done|].
    injection Hc as <-. by eapply str_strip_head.
  - intros c. apply str_strip_last.
Qed.

Lemma formatted_message_not_blank (title content : str) :
  blank (formatted_message title content) = false.
Proof.
  apply (blank_false_intro _ 42%N); [|done].
  unfold formatted_message. change (lit "**") with [42%N; 42%N].
  apply elem_of_app. left. by left.
Qed.

(** X15: [send_formatted] is never refused for blank content, not even
    with an empty title and an empty content: whenever a channel id is
    available it posts exactly one request, with the stripped composition
    of title and content, and it returns [True] exactly when the remote
    end answers with code 0. *)
Theorem send_formatted_always_posts (cfg : gmap str (gmap str str))
    (tr : list event) (title content : str) (channel_id : option str)
    (k : str) :
  usable_channel cfg channel_id = Some k →
  posts (send_formatted post cfg tr title content channel_id).2
  = posts tr ++ [(k, str_strip (formatted_message title content))]
  ∧ str_strip (formatted_message title content) ≠ []
  ∧ ((send_formatted post cfg tr title content channel_id).1 = true
     ↔ post (tr ++ [SendText (formatted_message title content) channel_id]) k
            (str_strip (formatted_message title content))
       = Response (Some 0%Z)).
Proof.
  intros Hk. unfold send_formatted.
  pose proof (formatted_message_not_blank title content) as Hb.
  split; [|split].
  - destruct (send_text_trace post cfg tr (formatted_message title content)
                channel_id) as [_ ->].
    by rewrite Hk, Hb.
  - by apply blank_false_strip.
  - rewrite send_text_result, Hk, Hb. cbn [negb andb].
    destruct (post _ _ _) as [[[| |]|]|]; by split.
Qed.

Lemma send_multiple_loop_dom (cfg : gmap str (gmap str str)) (n : nat)
    (messages : list str) (channel_id : option str) :
  ∀ (i : nat) (results : gmap str bool) (tr : list event),
    dom (send_multiple_loop post cfg n i messages channel_id results tr).1
    = dom results ∪ list_to_set messages.
Proof.
  induction messages as [|x rest IH]; intros i results tr;
    cbn [send_multiple_loop list_to_set].
  - cbn [fst]. set_solver.
  - destruct (blank x).
    + rewrite IH, dom_insert_L. set_solver.
    + destruct (send_text post cfg tr x channel_id) as [ok tr1].
      rewrite IH, dom_insert_L. set_solver.
Qed.

Lemma size_list_to_set_le (l : list str) :
  (size (list_to_set (C := gset str) l) ≤ List.length l)%nat
  ∧ (¬ NoDup l → (size (list_to_set (C := gset str) l) < List.length l)%nat).
Proof.
  induction l as [|x l [IHle IHlt]]; cbn [list_to_set List.length].
  - split; [by rewrite size_empty|]. intros H. destruct H. constructor.
  - destruct (decide (x ∈ l)) as [Hin|Hin].
    + assert ({[x]} ∪ list_to_set (C := gset str) l = list_to_set l) as ->.
      { apply subseteq_union_1_L, singleton_subseteq_l.
        by apply elem_of_list_to_set. }
      split; [lia|]. intros _. lia.
    + rewrite size_union, size_singleton.
      * split; [lia|]. intros Hdup.
        assert (¬ NoDup l) as Hl by (intros Hnd; apply Hdup; by constructor).
        specialize (IHlt Hl). lia.
      * apply disjoint_singleton_l. by rewrite elem_of_list_to_set.
Qed.

(** X16: the dict returned by [send_multiple] has exactly the distinct
    entries of the batch as keys, so a batch with repeated contents yields
    fewer results than it has entries. *)
Theorem send_multiple_result_keys (cfg : gmap str (gmap str str))
    (tr : list event) (messages : list str) (channel_id : option str) :
  dom (send_multiple post cfg tr messages channel_id).1
  = list_to_set messages
  ∧ (size (send_multiple post cfg tr messages channel_id).1
     ≤ List.length messages)%nat
  ∧ (¬ NoDup messages →
     (size (send_multiple post cfg tr messages channel_id).1
      < List.length messages)%nat).
Proof.
  unfold send_multiple.
  pose proof (send_multiple_loop_dom cfg (List.length messages) messages
                channel_id 1 ∅ tr) as Hdom.
  rewrite dom_empty_L, (left_id_L ∅ (∪)) in Hdom.
  split; [done|]. rewrite <- size_dom, Hdom. apply size_list_to_set_le.
Qed.

Lemma sleeps_app (t1 t2 : list event) : sleeps (t1 ++ t2) = sleeps t1 + sleeps t2.
Proof. unfold sleeps. by rewrite omap_app, length_app. Qed.

Lemma send_text_sleeps (cfg : gmap str (gmap str str)) (tr : list event)
    (content : str) (channel_id : option str) :
  sleeps (send_text post cfg tr content channel_id).2 = sleeps tr.
Proof.
  unfold send_text.
  destruct (match channel_id with
            | None => get_channel_id cfg
            | Some c => Some c
            end) as [[|c0 c]|];
    [| destruct (blank content);
       [| destruct (post _ _ _) as [[[| |]|]|]] |];
    cbn [snd]; rewrite ?sleeps_app; cbn; lia.
Qed.

Lemma send_multiple_loop_sleeps (cfg : gmap str (gmap str str)) (n : nat)
    (messages : list str) (channel_id : option str) :
  ∀ (i : nat) (results : gmap str bool) (tr : list event),
    i + List.length messages = S n →
    sleeps (send_multiple_loop post cfg n i messages channel_id results tr).2
    = sleeps tr
      + List.length (sendable (take (List.length messages - 1) messages)).
Proof.
  unfold sendable.
  induction messages as [|x rest IH]; intros i results tr Hi;
    cbn [send_multiple_loop].
  - cbn -[sleeps]. lia.
  - cbn [List.length] in Hi.
    assert (filter (fun m => blank m = false)
                   (take (List.length (x :: rest) - 1) (x :: rest))
            = match rest with
              | [] => []
              | _ :: _ =>
                  filter (fun m => blank m = false)
                         (x :: take (List.length rest - 1) rest)
              end) as ->.
    { destruct rest as [|y r]; [done|]. cbn [List.length].
      rewrite !Nat.sub_1_r. by cbn [Nat.pred take]. }
    destruct (blank x) eqn:Hx.
    + rewrite IH by lia. destruct rest as [|y r]; [done|].
      by rewrite filter_cons_False by congruence.
    + pose proof (send_text_sleeps cfg tr x channel_id) as Hs.
      destruct (send_text post cfg tr x channel_id) as [ok tr1].
      cbn [snd] in Hs. rewrite IH by lia.
      destruct rest as [|y r].
      * cbn [List.length] in *. rewrite (proj2 (Nat.ltb_ge i n)) by lia.
        rewrite Hs. done.
      * cbn [List.length] in *. rewrite (proj2 (Nat.ltb_lt i n)) by lia.
        rewrite sleeps_app, Hs, filter_cons_True by done.
        cbn [List.length]. unfold sleeps at 2. cbn. lia.
Qed.

Lemma send_text_events (cfg : gmap str (gmap str str)) (tr : list event)
    (content : str) (channel_id : option str) :
  blank content = false →
  (send_text post cfg tr content channel_id).2
  = tr ++ send_events cfg channel_id content.
Proof.
  intros Hb. unfold send_text, send_events, usable_channel.
  destruct (match channel_id with
            | None => get_channel_id cfg
            | Some c => Some c
            end) as [[|c0 c]|]; [done| |done].
  rewrite Hb. destruct (post _ _ _) as [[[| |]|]|]; cbn [snd];
    by rewrite <- app_assoc.
Qed.

Lemma send_multiple_loop_trace (cfg : gmap str (gmap str str)) (n : nat)
    (messages : list str) (channel_id : option str) :
  ∀ (i : nat) (results : gmap str bool) (tr : list event),
    i + List.length messages = S n →
    (send_multiple_loop post cfg n i messages channel_id results tr).2
    = tr
      ++ flat_map (fun m => if blank m then []
                            else send_events cfg channel_id m ++ [Sleep])
                  (take (List.length messages - 1) messages)
      ++ flat_map (fun m => if blank m then []
                            else send_events cfg channel_id m)
                  (drop (List.length messages - 1) messages).
Proof.
  induction messages as [|x rest IH]; intros i results tr Hi;
    cbn [send_multiple_loop].
  - cbn. by rewrite app_nil_r.
  - cbn [List.length] in Hi.
    destruct rest as [|y r].
    + cbn [List.length Nat.sub take drop flat_map app] in *.
      destruct (blank x) eqn:Hx; cbn [send_multiple_loop snd].
      * by rewrite app_nil_r.
      * pose proof (send_text_events cfg tr x channel_id Hx) as Hs.
        destruct (send_text post cfg tr x channel_id) as [ok tr1].
        cbn [snd] in Hs. rewrite (proj2 (Nat.ltb_ge i n)) by lia.
        cbn [send_multiple_loop snd]. by rewrite Hs, app_nil_r.
    + assert (List.length (x :: y :: r) - 1 = S (List.length (y :: r) - 1))
        as -> by (cbn [List.length]; lia).
      cbn [take drop flat_map].
      destruct (blank x) eqn:Hx.
      * rewrite IH by (cbn [List.length] in *; lia). done.
      * pose proof (send_text_events cfg tr x channel_id Hx) as Hs.
        destruct (send_text post cfg tr x channel_id) as [ok tr1].
        cbn [snd] in Hs. cbn [List.length] in Hi.
        rewrite (proj2 (Nat.ltb_lt i n)) by lia.
        rewrite IH by (cbn [List.length]; lia).
        rewrite Hs. by rewrite <- !app_assoc.
Qed.

(** X17: the trace of [send_multiple] is the given trace followed, entry
    by entry in input order, by nothing for a blank entry and by the
    events of its [send_text] call for a non-blank one; for every
    non-blank entry that is not the last entry of the batch these events
    are directly followed by one pacing delay, and there is no delay
    anywhere else.  So blank entries cause no delay, a non-blank entry
    followed only by blank entries is still followed by a delay, and the
    number of delays is the number of non-blank entries among all but the
    last. *)
Theorem send_multiple_pacing (cfg : gmap str (gmap str str))
    (tr : list event) (messages : list str) (channel_id : option str) :
  (send_multiple post cfg tr messages channel_id).2
  = tr
    ++ flat_map (fun m => if blank m then []
                          else send_events cfg channel_id m ++ [Sleep])
                (take (List.length messages - 1) messages)
    ++ flat_map (fun m => if blank m then []
                          else send_events cfg channel_id m)
                (drop (List.length messages - 1) messages)
  ∧ sleeps (send_multiple post cfg tr messages channel_id).2
    = sleeps tr
      + List.length (sendable (take (List.length messages - 1) messages)).
Proof.
  unfold send_multiple. split.
  - apply send_multiple_loop_trace. lia.
  - apply send_multiple_loop_sleeps. lia.
Qed.

(** ** Configuration *)

Lemma lit_channel_id_ne_bot_token : lit "channel_id" ≠ lit "bot_token".
Proof. by vm_compute. Qed.

Lemma set_channel_id_accepted (k : KookAPI) (c : str) :
  is_Some (config k !! lit "kook") →
  (set_channel_id k c).1 = true
  ∧ get_channel_id (config (set_channel_id k c).2) = Some c
  ∧ get_bot_token (config (set_channel_id k c).2) = get_bot_token (config k)
  ∧ headers (set_channel_id k c).2 = headers k.
Proof.
  intros [section Hs]. unfold set_channel_id, get_channel_id, get_bot_token.
  rewrite Hs. cbn [fst snd config headers].
  rewrite lookup_insert_eq. cbn [default from_option id].
  rewrite lookup_insert_eq, lookup_insert_ne
    by apply lit_channel_id_ne_bot_token.
  done.
Qed.

Lemma set_setter_refused (k : KookAPI) (x : str) :
  config k !! lit "kook" = None →
  set_channel_id k x = (false, k) ∧ set_bot_token k x = (false, k).
Proof. intros H. unfold set_channel_id, set_bot_token. by rewrite H. Qed.

(** X18: [set_channel_id] succeeds exactly when the configuration has a
    [kook] section.  A refused call changes nothing; after an accepted
    call [get_channel_id] returns the new id, and the bot token and the
    headers are as before. *)
Theorem set_channel_id_spec (k : KookAPI) (c : str) :
  ((set_channel_id k c).1 = true ↔ is_Some (config k !! lit "kook"))
  ∧ ((set_channel_id k c).1 = false → (set_channel_id k c).2 = k)
  ∧ ((set_channel_id k c).1 = true →
     get_channel_id (config (set_channel_id k c).2) = Some c
     ∧ get_bot_token (config (set_channel_id k c).2)
       = get_bot_token (config k)
     ∧ headers (set_channel_id k c).2 = headers k).
Proof.
  destruct (config k !! lit "kook") as [section|] eqn:Hs.
  - destruct (set_channel_id_accepted k c) as (Hok & Hrest);
      [by rewrite Hs|].
    rewrite Hok. split; [by split; eauto|]. by split.
  - destruct (set_setter_refused k c Hs) as [-> _]. cbn.
    split; [by split; [|intros [? [=]]]|]. by split.
Qed.

Lemma set_bot_token_accepted (k : KookAPI) (token : str) :
  is_Some (config k !! lit "kook") →
  (set_bot_token k token).1 = true
  ∧ get_bot_token (config (set_bot_token k token).2) = Some token
  ∧ get_channel_id (config (set_bot_token k token).2)
    = get_channel_id (config k)
  ∧ headers (set_bot_token k token).2 !! lit "Authorization"
    = Some (lit "Bot " ++ token).
Proof.
  intros [section Hs]. unfold set_bot_token, get_channel_id, get_bot_token.
  rewrite Hs. cbn [fst snd config headers].
  rewrite !lookup_insert_eq. cbn [default from_option id].
  rewrite lookup_insert_eq, lookup_insert_ne; [done|].
  intros H. by apply lit_channel_id_ne_bot_token.
Qed.

(** X19: [set_bot_token] succeeds exactly when the configuration has a
    [kook] section.  After an accepted call [get_bot_token] returns the
    new token, the [Authorization] header is [Bot] followed by it, and the
    channel id is as before; a refused call changes neither the
    configuration nor the header. *)
Theorem set_bot_token_spec (k : KookAPI) (token : str) :
  ((set_bot_token k token).1 = true ↔ is_Some (config k !! lit "kook"))
  ∧ ((set_bot_token k token).1 = false → (set_bot_token k token).2 = k)
  ∧ ((set_bot_token k token).1 = true →
     get_bot_token (config (set_bot_token k token).2) = Some token
     ∧ get_channel_id (config (set_bot_token k token).2)
       = get_channel_id (config k)
     ∧ headers (set_bot_token k token).2 !! lit "Authorization"
       = Some (lit "Bot " ++ token)).
Proof.
  destruct (config k !! lit "kook") as [section|] eqn:Hs.
  - destruct (set_bot_token_accepted k token) as (Hok & Hrest);
      [by rewrite Hs|].
    rewrite Hok. split; [by split; eauto|]. by split.
  - destruct (set_setter_refused k token Hs) as [_ ->]. cbn.
    split; [by split; [|intros [? [=]]]|]. by split.
Qed.

Lemma header_matches_do_api_call (k : KookAPI) (c : api_call) :
  header_matches k → header_matches (do_api_call k c).
Proof.
  unfold header_matches. intros Hk.
  destruct (config k !! lit "kook") as [section|] eqn:Hs.
  - destruct c as [token|ch]; cbn [do_api_call].
    + destruct (set_bot_token_accepted k token) as (_ & -> & _ & ->);
        [by rewrite Hs|done].
    + destruct (set_channel_id_accepted k ch) as (_ & _ & -> & ->);
        [by rewrite Hs|done].
  - destruct c as [token|ch]; cbn [do_api_call].
    + by destruct (set_setter_refused k token Hs) as [_ ->].
    + by destruct (set_setter_refused k ch Hs) as [-> _].
Qed.

(** X20: from construction on and after any sequence of [set_bot_token]
    and [set_channel_id] calls, accepted or refused, the [Authorization]
    header is [Bot] followed by the configured bot token (by nothing when
    no token is configured). *)
Theorem authorization_header_follows_token (cfg : gmap str (gmap str str))
    (cs : list api_call) :
  headers (run_api_calls (new_api cfg) cs) !! lit "Authorization"
  = Some (lit "Bot "
          ++ default [] (get_bot_token
                           (config (run_api_calls (new_api cfg) cs)))).
Proof.
  assert (header_matches (new_api cfg)) as Hinit.
  { unfold header_matches, new_api. cbn [headers config].
    rewrite lookup_insert_ne by (by vm_compute).
    rewrite lookup_insert_eq.
    by destruct (get_bot_token cfg) as [[|c t]|]. }
  unfold run_api_calls. revert Hinit. generalize (new_api cfg) as k.
  induction cs as [|c cs IH]; intros k Hk; cbn [foldl]; [done|].
  by apply IH, header_matches_do_api_call.
Qed.

(** X21: after an accepted [set_channel_id c] with a non-empty [c], a
    [send_text] without channel argument posts its non-blank content,
    stripped, to [c]. *)
Theorem set_channel_id_then_send_text (k : KookAPI) (c content : str)
    (tr : list event) :
  is_Some (config k !! lit "kook") →
  c ≠ [] →
  blank content = false →
  (set_channel_id k c).1 = true
  ∧ posts (send_text post (config (set_channel_id k c).2) tr content None).2
    = posts tr ++ [(c, str_strip content)].
Proof.
  intros Hs Hc Hb.
  destruct (set_channel_id_accepted k c Hs) as (Hok & Hch & _).
  split; [done|].
  destruct (send_text_trace post (config (set_channel_id k c).2) tr content
              None) as [_ ->].
  unfold usable_channel. rewrite Hch, Hb. by destruct c.
Qed.

(** X22: [validate_config] reports the channel id as present exactly when
    a [send_text] without channel argument has a channel to use, which is
    also what [get_server_id] returns; when it reports the channel id as
    missing, every such [send_text] returns [False] and posts nothing. *)
Theorem validate_config_channel (cfg : gmap str (gmap str str)) :
  (validate_config cfg !! lit "channel_id" = Some true
   ↔ ∃ c, usable_channel cfg None = Some c)
  ∧ get_server_id cfg = usable_channel cfg None
  ∧ (validate_config cfg !! lit "channel_id" = Some false →
     ∀ tr content,
       send_text post cfg tr content None
       = (false, tr ++ [SendText content None])).
Proof.
  unfold validate_config, get_server_id. rewrite lookup_insert_eq.
  assert (usable_channel cfg None
          = if truthy (get_channel_id cfg) then get_channel_id cfg else None)
    as Hu.
  { unfold usable_channel. by destruct (get_channel_id cfg) as [[|c t]|]. }
  split; [|split].
  - rewrite Hu. destruct (get_channel_id cfg) as [[|c t]|]; cbn;
      (split; [intros [=]|intros [? [=]]]); eauto.
  - by rewrite Hu.
  - intros [= Ht] tr content. apply send_text_refused. left.
    by rewrite Hu, Ht.
Qed.

(** ** Registration and execution *)

(** X23: after a host handler [g] has been registered at level 0 under
    [name], a prefixed message whose lower-cased first token is [name]
    ([name] not being a key of the alias map) is answered, for every
    caller and also without one, by [g] applied to the remaining tokens
    and their join: with its result, or with the error text when it
    raises. *)
Theorem process_message_after_register (h : CommandHandler) (name : str)
    (g : list str -> str -> outcome str) (descr usg : str)
    (als : option (list str)) (m tok : str) (rest : list str)
    (user : option (gmap str bool)) :
  str_startswith m (command_prefix h) = true →
  str_split (str_strip (drop (List.length (command_prefix h)) m))
  = tok :: rest →
  str_lower tok = name →
  name ∉ default [] als →
  aliases h !! name = None →
  process_message str_lower repr run_builtin
    (register_command h name (Host g) descr usg als 0).2 m user
  = match g rest (str_join (lit " ") rest) with
    | Ret result => Ret result
    | Raise e => Ret (exec_error repr name e)
    end.
Proof.
  intros Hp Hs Hl Hn Hnone.
  destruct (register_command_fields h name (Host g) descr usg als 0)
    as (Hc & Hperm & _ & Ha).
  rewrite (process_message_tokens
             (register_command h name (Host g) descr usg als 0).2 m user
             tok rest Hp Hs).
  assert (default (str_lower tok)
            (aliases (register_command h name (Host g) descr usg als 0).2
             !! str_lower tok) = name) as ->.
  { rewrite Ha, Hl, decide_False, Hnone by done. done. }
  rewrite Hc, lookup_insert_eq. unfold _check_permission.
  rewrite Hperm, lookup_insert_eq. done.
Qed.

End Further.

(** * The further properties on concrete inputs *)

Lemma process_message_dispatch_witness :
  process_message ascii_lower plain_repr sample_builtin sample_handler
    (lit "!kick  now") None
  = Ret permission_denied_msg.
Proof.
  rewrite (process_message_dispatch ascii_lower plain_repr sample_builtin
             sample_handler (lit "!kick  now") None (lit "kick") [lit "now"]);
    vm_compute; reflexivity.
Defined.

Lemma parse_command_args_roundtrip_witness :
  Forall is_token [lit "a"; lit "b"]
  ∧ lit "a b" = str_join (lit " ") [lit "a"; lit "b"]
  ∧ str_split (lit "a b") = [lit "a"; lit "b"].
Proof.
  apply (parse_command_args_roundtrip ascii_lower fresh_handler
           (lit "!help  a   b")
           {| is_command := Some true; valid := Some true;
              command_name := Some (lit "help");
              original_name := Some (lit "help");
              args := Some [lit "a"; lit "b"]; raw_args := Some (lit "a b");
              error := None |});
    vm_compute; reflexivity.
Defined.

Lemma parse_command_token_insensitive_witness :
  parse_command ascii_lower fresh_handler (lit "!HELP x")
  = parse_command ascii_lower fresh_handler (lit "!help    x").
Proof.
  apply (parse_command_token_insensitive ascii_lower fresh_handler
           (lit "!HELP x") (lit "!help    x") (lit "HELP") (lit "help")
           [lit "x"]);
    vm_compute; reflexivity.
Defined.

Lemma parse_command_after_register_witness :
  parse_command ascii_lower
    (register_command fresh_handler (lit "kick") pong [] []
       (Some [lit "k"]) 1).2
    (lit "!K bob")
  = Ret {| is_command := Some true; valid := Some true;
           command_name := Some (lit "kick");
           original_name := Some (ascii_lower (lit "K"));
           args := Some [lit "bob"];
           raw_args := Some (str_join (lit " ") [lit "bob"]);
           error := None |}.
Proof.
  apply (parse_command_after_register ascii_lower fresh_handler (lit "kick")
           pong [] [] (Some [lit "k"]) 1 (lit "!K bob") (lit "K")
           [lit "bob"]);
    [vm_compute; reflexivity|vm_compute; reflexivity|].
  left. vm_compute. left.
Defined.

Lemma parse_command_after_unregister_witness :
  (unregister_command (run_calls (init (lit "!")) []) (lit "help")).1 = true
  ∧ parse_command ascii_lower
      (unregister_command (run_calls (init (lit "!")) []) (lit "help")).2
      (lit "!h")
    = Ret {| is_command := Some true; valid := Some false;
             command_name := Some (ascii_lower (lit "h"));
             original_name := None; args := None; raw_args := None;
             error := Some (unknown_command_msg ++ ascii_lower (lit "h")) |}.
Proof.
  apply (parse_command_after_unregister ascii_lower (lit "!") [] (lit "help")
           (lit "!h") (lit "h") []);
    [vm_compute; eauto|vm_compute; reflexivity|vm_compute; reflexivity
    |vm_compute; reflexivity|right; vm_compute; reflexivity].
Defined.

Lemma parse_command_after_set_prefix_witness :
  parse_command ascii_lower (set_command_prefix fresh_handler (lit "?")).2
    (lit "?" ++ lit "help")
  = parse_command ascii_lower fresh_handler
      (command_prefix fresh_handler ++ lit "help").
Proof.
  apply (parse_command_after_set_prefix ascii_lower fresh_handler (lit "?")
           (lit "help")).
  vm_compute; reflexivity.
Defined.

Lemma shown_level_is_enforced_level_witness :
  permissions (run_calls (init (lit "!"))
                 [Register (lit "kick") pong [] [] None 1]) !! lit "kick"
  = Some 1%Z.
Proof.
  apply (shown_level_is_enforced_level (lit "!")
           [Register (lit "kick") pong [] [] None 1] (lit "kick")
           {| func := pong; description := []; usage := [];
              permission_level := 1 |}).
  vm_compute; reflexivity.
Defined.

Lemma level_outside_range_is_unusable_witness :
  execute_command plain_repr sample_builtin level7_handler
    (invocation (lit "odd")) (Some full_caller)
  = Ret permission_denied_msg.
Proof.
  apply (level_outside_range_is_unusable plain_repr sample_builtin
           level7_handler (lit "odd") 7 (invocation (lit "odd")));
    try (vm_compute; reflexivity); discriminate.
Defined.

Lemma get_command_info_of_alias_witness :
  aliases (run_calls (init (lit "!")) []) !! lit "h" = Some (lit "help")
  ∧ ∃ info, get_command_info (run_calls (init (lit "!")) []) (lit "h")
            = Some info
      ∧ info_name info = lit "help"
      ∧ lit "h" ∈ info_aliases info.
Proof.
  assert (aliases (run_calls (init (lit "!")) []) !! lit "h"
          = Some (lit "help")) as Ha by (vm_compute; reflexivity).
  destruct (get_command_info_of_alias (lit "!") [] (lit "h") (lit "help") Ha)
    as (info & Hi & Hn & _ & Hin & _).
  exact (conj Ha (ex_intro _ info (conj Hi (conj Hn Hin)))).
Defined.

Lemma send_formatted_always_posts_witness :
  posts (send_formatted accepting_post sample_config [] [] [] None).2
  = [(lit "c1", lit "****")].
Proof.
  rewrite (proj1 (send_formatted_always_posts accepting_post sample_config
                    [] [] [] None (lit "c1") eq_refl)).
  vm_compute; reflexivity.
Defined.

Lemma send_multiple_posts_are_trimmed_witness :
  (lit "c1", lit "hello")
  ∈ posts (send_multiple accepting_post sample_config [] [lit "  hello  "]
             None).2
  ∧ usable_channel sample_config None = Some (lit "c1")
  ∧ lit "hello" ≠ [].
Proof.
  assert ((lit "c1", lit "hello")
          ∈ posts (send_multiple accepting_post sample_config []
                     [lit "  hello  "] None).2) as Hin
    by (vm_compute; left).
  destruct (send_multiple_posts_are_trimmed accepting_post sample_config []
              [lit "  hello  "] None (lit "c1", lit "hello") Hin)
    as [Hold|(Hu & _ & _ & Hne & _)].
  - exfalso. by apply elem_of_nil in Hold.
  - exact (conj Hin (conj Hu Hne)).
Defined.

Lemma set_channel_id_then_send_text_witness :
  (set_channel_id (new_api sample_config) (lit "c2")).1 = true
  ∧ posts (send_text accepting_post
             (config (set_channel_id (new_api sample_config) (lit "c2")).2)
             [] (lit " hi ") None).2
    = posts [] ++ [(lit "c2", str_strip (lit " hi "))].
Proof.
  apply (set_channel_id_then_send_text accepting_post
           (new_api sample_config) (lit "c2") (lit " hi ") []);
    [vm_compute; eauto|discriminate|vm_compute; reflexivity].
Defined.

Lemma process_message_after_register_witness :
  process_message ascii_lower plain_repr sample_builtin
    (register_command fresh_handler (lit "ping")
       (Host (fun _ _ => Ret (lit "pong"))) [] [] None 0).2
    (lit "!Ping") None
  = Ret (lit "pong").
Proof.
  apply (process_message_after_register ascii_lower plain_repr sample_builtin
           fresh_handler (lit "ping") (fun _ _ => Ret (lit "pong")) [] []
           None (lit "!Ping") (lit "Ping") [] None);
    try (vm_compute; reflexivity).
  apply not_elem_of_nil.
Defined.
